(** * fb2converter: keyword templates and EPUB finalisation

  A shallow embedding of two routines of the [processor] package:

  - [ReplaceKeywords] (textutils.go), the recursive keyword/template
    expansion with conditional blocks in curly brackets;
  - [FinalizeEPUB], which packs the temporary directory of a conversion
    into the EPUB container, the [mimetype] entry first.

  Go strings are byte sequences: they are modelled by [string], whose
  characters ([ascii]) are the bytes.  Go [int] indices are modelled by [Z],
  with the sentinel [-1] the source uses. *)

From Stdlib Require Import ZArith Ascii String Lia Bool.
From stdpp Require Import gmap strings list sorting.
From stdpp Require Import pretty.

Local Open Scope string_scope.
Local Open Scope list_scope.
Local Open Scope Z_scope.

(** ** The parts of Go's standard library the code relies on *)

Module Utf8.

(** [unicode/utf8], as far as the width of a rune goes: [range] over a
    string and [strings.Replace] with an empty pattern step from rune to
    rune. *)

(** [lo <= c && c <= hi] on bytes. *)
Definition inRange (lo hi : N) (c : ascii) : bool :=
  ((lo <=? N_of_ascii c) && (N_of_ascii c <=? hi))%N.

(** The table [first] of the package, reduced to what the width needs:
    the size of the sequence and the range accepted for its second byte.
    [None] stands for the entries [as] (ASCII) and [xx] (invalid). *)
Definition first (c : ascii) : option (nat * (N * N)) :=
  let b := N_of_ascii c in
  if (b <? 0xC2)%N then None
  else if (b <=? 0xDF)%N then Some (2%nat, (0x80, 0xBF)%N)
  else if (b =? 0xE0)%N then Some (3%nat, (0xA0, 0xBF)%N)
  else if (b =? 0xED)%N then Some (3%nat, (0x80, 0x9F)%N)
  else if (b <=? 0xEF)%N then Some (3%nat, (0x80, 0xBF)%N)
  else if (b =? 0xF0)%N then Some (4%nat, (0x90, 0xBF)%N)
  else if (b <=? 0xF3)%N then Some (4%nat, (0x80, 0xBF)%N)
  else if (b =? 0xF4)%N then Some (4%nat, (0x80, 0x8F)%N)
  else None.

(** Width in bytes of the first UTF-8 sequence of [s], the second result
    of [utf8.DecodeRuneInString]: an invalid or truncated sequence has width
    1, the empty string width 0.  (The test [n < sz] of the package is made
    byte by byte here: every byte that is missing gives width 1.) *)
Definition runeWidth (s : string) : nat :=
  match s with
  | EmptyString => 0
  | String s0 rest =>
    match first s0 with
    | None => 1
    | Some (sz, (lo, hi)) =>
      match rest with
      | EmptyString => 1
      | String s1 rest1 =>
        if negb (inRange lo hi s1) then 1
        else if (sz <=? 2)%nat then 2
        else match rest1 with
             | EmptyString => 1
             | String s2 rest2 =>
               if negb (inRange 0x80 0xBF s2) then 1
               else if (sz <=? 3)%nat then 3
               else match rest2 with
                    | EmptyString => 1
                    | String s3 _ =>
                      if negb (inRange 0x80 0xBF s3) then 1 else 4
                    end
             end
      end
    end
  end%nat.

End Utf8.

Module Strings.

(** [len(s)] *)
Definition len (s : string) : Z := Z.of_nat (String.length s).

(** [s[lo:hi]], for [0 <= lo <= hi <= len(s)] (Go panics otherwise). *)
Definition slice (s : string) (lo hi : Z) : string :=
  substring (Z.to_nat lo) (Z.to_nat (hi - lo)) s.

(** [s[i]] as an optional byte; the code only indexes in range. *)
Definition at_ (s : string) (i : Z) : option ascii :=
  if i <? 0 then None else String.get (Z.to_nat i) s.

(** [strings.HasPrefix(s, prefix)] *)
Definition HasPrefix (s prefix : string) : bool := String.prefix prefix s.

(** [strings.Index(s, substr)]: the byte index of the first occurrence of
    [substr] in [s], [-1] when there is none; the empty string occurs at
    index 0. *)
Fixpoint Index (s substr : string) : Z :=
  if HasPrefix s substr then 0
  else match s with
       | EmptyString => -1
       | String _ s' =>
         let i := Index s' substr in
         if i =? -1 then -1 else i + 1
       end.

(** [strings.Replace(s, old, new, -1)] for a non-empty [old]: the
    occurrences of [old] are found from left to right and do not overlap.
    [skip] counts the bytes of a matched occurrence still to be dropped. *)
Fixpoint replaceFrom (skip : nat) (s old new : string) : string :=
  match s with
  | EmptyString => EmptyString
  | String c s' =>
    match skip with
    | S k => replaceFrom k s' old new
    | O =>
      if HasPrefix s old
      then new +:+ replaceFrom (String.length old - 1) s' old new
      else String c (replaceFrom 0 s' old new)
    end
  end.

(** [strings.Replace(s, "", new, -1)]: [new] is inserted after every
    UTF-8 sequence of [s] (and once in front, see [Replace]).  [rem] counts
    the bytes of the current sequence still to be copied. *)
Fixpoint insertAfterRunes (rem : nat) (s new : string) : string :=
  match s with
  | EmptyString => EmptyString
  | String c s' =>
    let w := match rem with O => Utf8.runeWidth s | S _ => rem end in
    if (w <=? 1)%nat
    then String c (new +:+ insertAfterRunes 0 s' new)
    else String c (insertAfterRunes (w - 1) s' new)
  end.

(** [strings.Replace(s, old, new, -1)].  The package returns [s] itself
    when [old == new] or when [old] does not occur; in the latter case the
    functions above do so too. *)
Definition Replace (s old new : string) : string :=
  if String.eqb old new then s
  else match old with
       | EmptyString => new +:+ insertAfterRunes 0 s new
       | String _ _ => replaceFrom 0 s old new
       end.

End Strings.

Module Sort.

(** [sort.Strings]: the strings in increasing order of Go's [<], which is
    bytewise lexicographic, as [String.le] is. *)
Definition Strings (keys : list string) : list string :=
  merge_sort String.le keys.

End Sort.

(** ** textutils.go: [ReplaceKeywords] *)

Module TextUtils.

Import Strings.

(** The closure [expandKeyword] (textutils.go, lines 92-97). *)
Definition expandKeyword (in_ key value : string) : string * bool :=
  if negb (Index in_ key =? -1)
  then (Replace in_ key value, 0 <? len value)
  else (in_, false).

(** The keys of the map, collected by [for k := range m] and sorted.  The
    iteration order of a Go map is unspecified; any order gives the same
    list once sorted, since keys are unique. *)
Definition sortedKeys (m : gmap string string) : list string :=
  Sort.Strings (map_to_list m).*1.

(** The order in which [expandAll] visits the keys: the loop runs from
    [len(keys) - 1] down to [0]. *)
Definition expansionOrder (m : gmap string string) : list string :=
  reverse (sortedKeys m).

(** One iteration of the loop of [expandAll], on the pair
    ([in], [expanded]); [m[key]] is the zero value for a missing key. *)
Definition expandStep (m : gmap string string)
    (acc : string * bool) (key : string) : string * bool :=
  let '(in_, expanded) := acc in
  let '(in', ok) := expandKeyword in_ key (default EmptyString (m !! key)) in
  (in', expanded || ok).

(** The closure [expandAll] (lines 99-117): the first component of the
    fold is [in], the second [expanded]. *)
Definition expandAll (in_ : string) (m : gmap string string) : string :=
  let '(out, expanded) :=
    foldl (expandStep m) (in_, false) (expansionOrder m) in
  if negb expanded then EmptyString else out.

(** Is the byte at index [i] free of an escaping backslash?  [prev] is
    [in[i-1]] when [i > 0]. *)
Definition notEscaped (i : Z) (prev : ascii) : bool :=
  (i =? 0) || (0 <? i) && negb (Ascii.eqb prev "\"%char).

(** The loop [for i, c := range in] (lines 120-127), from byte index [i] on
    the rest [s] of the input.  The loop steps from rune to rune: [rem] counts the bytes
    of the current rune still to be stepped over.  The rune at [i] is '{'
    (or '}') exactly when the byte [in[i]] is, both being below 0x80. *)
Fixpoint scanFrom (rem : nat) (i : Z) (prev : ascii) (s : string) (bopen : Z)
    : Z * Z :=
  match s with
  | EmptyString => (bopen, -1)
  | String c s' =>
    match rem with
    | S k => scanFrom k (i + 1) c s' bopen
    | O =>
      let next := (Utf8.runeWidth s - 1)%nat in
      if Ascii.eqb c "{"%char && notEscaped i prev
      then scanFrom next (i + 1) c s' i
      else if Ascii.eqb c "}"%char && notEscaped i prev
      then (bopen, i)
      else scanFrom next (i + 1) c s' bopen
    end
  end.

(** [(bopen, bclose)] after the loop. *)
Definition scan (in_ : string) : Z * Z := scanFrom 0 0 zero in_ (-1).

(** The condition under which [ReplaceKeywords] resolves a block:
    [bopen >= 0 && bclose > 0 && bopen < bclose] (line 129). *)
Definition hasBlock (b : Z * Z) : bool :=
  (0 <=? fst b) && (0 <? snd b) && (fst b <? snd b).

(** The argument of the recursive call:
    [in[:bopen] + expandAll(in[bopen+1:bclose], m) + in[bclose+1:]]. *)
Definition rewrite (in_ : string) (m : gmap string string) (b : Z * Z) : string :=
  let '(bopen, bclose) := b in
  slice in_ 0 bopen
    +:+ expandAll (slice in_ (bopen + 1) bclose) m
    +:+ slice in_ (bclose + 1) (len in_).

(** [ReplaceKeywords] (lines 90-133).  Go recursion is unbounded; [fuel]
    is the number of nested recursive calls allowed, and [None] means that
    more are needed. *)
Fixpoint ReplaceKeywords (fuel : nat) (in_ : string) (m : gmap string string)
    : option string :=
  if hasBlock (scan in_)
  then match fuel with
       | O => None
       | S fuel' => ReplaceKeywords fuel' (rewrite in_ m (scan in_)) m
       end
  else Some (expandAll in_ m).

End TextUtils.

(** ** The file system and the archive writer

  [FinalizeEPUB] works on the file system through the packages [os],
  [path/filepath], [io] and [archive/zip].  They are modelled by an
  in-memory file system in which every operation may fail. *)

Module FS.

(** A cleaned path, given by its elements from the root; two such paths
    have the same [filepath.ToSlash] form exactly when they have the same
    elements. *)
Abbreviation path := (list string).

(** What there is at a path: a regular file with its bytes, or a
    directory. *)
Inductive node : Type :=
| File (data : string)
| Dir.

(** The operations that can fail, and the reasons. *)
Inductive op : Type :=
| OpStat | OpLstat | OpRemove | OpMkdir | OpCreate | OpOpen | OpRead
| OpReadDir | OpZipCreate | OpZipWrite.

Inductive errno : Type :=
| ENOENT | ENOTDIR | EISDIR | ENOTEMPTY | EBUSY | EACCES | EIO.

(** Go's [error] values: the [*os.PathError] of a failed operation, and
    what [errors.Errorf], [errors.Wrap] and [errors.Wrapf] of
    [github.com/pkg/errors] build. *)
Inductive error : Type :=
| PathError (o : op) (p : path) (e : errno)
| Errorf (format : string) (arg : path)
| Wrap (cause : error) (message : string)
| Wrapf (cause : error) (format : string) (arg : path).

(** The state of the file system: the nodes by path (the root directory
    [[]] is always there), and the operations that fail for a reason of
    their own (permissions, I/O errors), with the error they report. *)
Record World : Type := {
  files : gmap path node;
  fault : op -> path -> option errno
}.

(** The world with other files. *)
Definition withFiles (w : World) (fs : gmap path node) : World :=
  {| files := fs; fault := fault w |}.

(** The node at a path, if any. *)
Definition nodeAt (w : World) (p : path) : option node :=
  match p with
  | [] => Some Dir
  | _ => files w !! p
  end.

(** [os.FileInfo], reduced to [Name()] and the file mode: the model has
    regular files and directories only. *)
Record FileInfo : Type := { Name : string; IsDir : bool }.

Definition IsRegular (info : FileInfo) : bool := negb (IsDir info).

(** [filepath.Base] *)
Definition Base (p : path) : string := List.last p "/".

(** [filepath.Dir] *)
Definition DirOf (p : path) : path := removelast p.

(** [filepath.Join(dir, name)] for a single element [name] *)
Definition Join (dir : path) (name : string) : path := dir ++ [name].

(** [filepath.ToSlash], as the text of a relative path *)
Fixpoint ToSlash (p : path) : string :=
  match p with
  | [] => "."
  | [x] => x
  | x :: rest => x +:+ "/" +:+ ToSlash rest
  end.

(** [filepath.Rel(base, targ)]; it cannot fail on two paths that both
    start at the root. *)
Fixpoint Rel (base targ : path) : path :=
  match base, targ with
  | b :: base', t :: targ' =>
    if decide (b = t) then Rel base' targ'
    else replicate (length base) ".." ++ targ
  | _, _ => replicate (length base) ".." ++ targ
  end.

(** The [FileInfo] of the node [n] found at [p]. *)
Definition infoOf (p : path) (n : node) : FileInfo :=
  {| Name := Base p; IsDir := match n with Dir => true | File _ => false end |}.

(** [os.Stat] and [os.Lstat] are the same here: the model has no
    symbolic links. *)
Definition statWith (o : op) (w : World) (p : path) : FileInfo + error :=
  match fault w o p with
  | Some e => inr (PathError o p e)
  | None =>
    match nodeAt w p with
    | Some n => inl (infoOf p n)
    | None => inr (PathError o p ENOENT)
    end
  end.

Definition Stat : World -> path -> FileInfo + error := statWith OpStat.

Definition Lstat : World -> path -> FileInfo + error := statWith OpLstat.

(** [os.IsNotExist] *)
Definition IsNotExist (err : error) : bool :=
  match err with
  | PathError _ _ ENOENT => true
  | _ => false
  end.

(** The name of [k] when it is an entry of the directory [d]. *)
Definition childName (d k : path) : option string :=
  match k with
  | [] => None
  | _ => if decide (DirOf k = d) then Some (Base k) else None
  end.

(** The names in the directory [d], sorted, as [readDirNames] of
    [path/filepath] returns them. *)
Definition readDirNames (w : World) (d : path) : list string :=
  merge_sort String.le (omap (childName d) (map_to_list (files w)).*1).

(** [os.Remove]: a file, or an empty directory. *)
Definition Remove (w : World) (p : path) : option error * World :=
  match fault w OpRemove p with
  | Some e => (Some (PathError OpRemove p e), w)
  | None =>
    match p, files w !! p with
    | [], _ => (Some (PathError OpRemove p EBUSY), w)
    | _, None => (Some (PathError OpRemove p ENOENT), w)
    | _, Some (File _) => (None, withFiles w (delete p (files w)))
    | _, Some Dir =>
      match readDirNames w p with
      | [] => (None, withFiles w (delete p (files w)))
      | _ :: _ => (Some (PathError OpRemove p ENOTEMPTY), w)
      end
    end
  end.

(** The directories along [rest] below [at_] are created where they are
    missing; what was created stays when a later element is a file. *)
Fixpoint mkdirs (fs : gmap path node) (at_ : path) (rest : list string)
    : option error * gmap path node :=
  match rest with
  | [] => (None, fs)
  | x :: rest' =>
    let q := at_ ++ [x] in
    match fs !! q with
    | Some Dir => mkdirs fs q rest'
    | Some (File _) => (Some (PathError OpMkdir q ENOTDIR), fs)
    | None => mkdirs (<[q := Dir]> fs) q rest'
    end
  end.

(** [os.MkdirAll(p, 0700)] *)
Definition MkdirAll (w : World) (p : path) : option error * World :=
  match fault w OpMkdir p with
  | Some e => (Some (PathError OpMkdir p e), w)
  | None => let '(err, fs) := mkdirs (files w) [] p in (err, withFiles w fs)
  end.

(** [os.Create]: the file is created, or truncated when it exists. *)
Definition Create (w : World) (p : path) : option error * World :=
  match fault w OpCreate p with
  | Some e => (Some (PathError OpCreate p e), w)
  | None =>
    match p, nodeAt w (DirOf p), nodeAt w p with
    | [], _, _ => (Some (PathError OpCreate p EISDIR), w)
    | _, _, Some Dir => (Some (PathError OpCreate p EISDIR), w)
    | _, Some Dir, _ => (None, withFiles w (<[p := File ""]> (files w)))
    | _, Some (File _), _ => (Some (PathError OpCreate p ENOTDIR), w)
    | _, None, _ => (Some (PathError OpCreate p ENOENT), w)
    end
  end.

(** [os.Open]; the reader is the path opened. *)
Definition Open (w : World) (p : path) : path + error :=
  match fault w OpOpen p with
  | Some e => inr (PathError OpOpen p e)
  | None =>
    match nodeAt w p with
    | Some _ => inl p
    | None => inr (PathError OpOpen p ENOENT)
    end
  end.

(** What reading [r] to the end gives. *)
Definition readAll (w : World) (r : path) : string + error :=
  match fault w OpRead r with
  | Some e => inr (PathError OpRead r e)
  | None =>
    match nodeAt w r with
    | Some (File data) => inl data
    | Some Dir => inr (PathError OpRead r EISDIR)
    | None => inr (PathError OpRead r ENOENT)
    end
  end.

(** [filepath.Walk] descends from [root] through directories only:
    [reachedFrom w at_ rest] tells whether every node from [at_] down along
    [rest], the last one apart, is a directory. *)
Fixpoint reachedFrom (w : World) (at_ : path) (rest : list string) : bool :=
  match rest with
  | [] => true
  | x :: rest' =>
    match nodeAt w at_ with
    | Some Dir => reachedFrom w (at_ ++ [x]) rest'
    | _ => false
    end
  end.

(** What [k] has after [root], when it lies strictly below [root]. *)
Fixpoint below (root k : path) : option (list string) :=
  match root, k with
  | [], x :: rest => Some (x :: rest)
  | r :: root', x :: k' => if decide (r = x) then below root' k' else None
  | _, [] => None
  end.

(** The walk from [root] comes to [k]. *)
Definition isBelow (w : World) (root k : path) : bool :=
  match below root k with
  | Some rest => reachedFrom w root rest
  | None => false
  end.

(** The lexical order of the walk: element by element, a directory before
    what it contains. *)
Fixpoint path_leb (a b : path) : bool :=
  match a, b with
  | [], _ => true
  | _ :: _, [] => false
  | x :: a', y :: b' =>
    if decide (x = y) then path_leb a' b' else String.leb x y
  end.

Definition path_le (a b : path) : Prop := Is_true (path_leb a b).

(** The paths [filepath.Walk] calls the walk function on, in its order:
    [root], then all it comes to below, in lexical order. *)
Definition walkOrder (w : World) (root : path) : list path :=
  root :: merge_sort path_le
            (filter (fun k => Is_true (isBelow w root k))
                    (map_to_list (files w)).*1).

End FS.

Module Zip.

Import FS.

(** The compression methods [zip.Store] and [zip.Deflate]. *)
Inductive method : Type := Store | Deflate.

(** [zip.FileHeader], reduced to the fields the code sets. *)
Record FileHeader : Type := { HName : string; HMethod : method }.

(** A member of the archive: its header and the bytes written to it. *)
Record Entry : Type := { Header : FileHeader; Data : string }.

(** The members written so far, in order.  The [io.Writer] that
    [CreateHeader] returns is the index of the member it added. *)
Definition Writer : Type := list Entry.

(** [CreateHeader(&h)]: a member with the header [h] is added; [src] is
    the file it is added for, by which a failure is decided. *)
Definition CreateHeader (w : World) (src : path) (h : FileHeader) (z : Writer)
    : (nat * Writer) + error :=
  match fault w OpZipCreate src with
  | Some e => inr (PathError OpZipCreate src e)
  | None => inl (length z, z ++ [ {| Header := h; Data := "" |} ])
  end.

(** [Create(name)]: [CreateHeader] with the [Deflate] method. *)
Definition Create (w : World) (src : path) (name : string) (z : Writer)
    : (nat * Writer) + error :=
  CreateHeader w src {| HName := name; HMethod := Deflate |} z.

(** Writing [bytes] to the member at index [i]. *)
Definition write (i : nat) (bytes : string) (z : Writer) : Writer :=
  alter (fun e => {| Header := Header e; Data := Data e +:+ bytes |}) i z.

(** [io.Copy(dst, r)] from the file opened as [r] to the member [dst]. *)
Definition Copy (w : World) (dst : nat) (r : path) (z : Writer)
    : option error * Writer :=
  match readAll w r with
  | inr e => (Some e, z)
  | inl bytes =>
    match fault w OpZipWrite r with
    | Some e => (Some (PathError OpZipWrite r e), z)
    | None => (None, write dst bytes z)
    end
  end.

End Zip.

(** ** [FinalizeEPUB] *)

Module Epub.

Import FS.

(** Modelled from the spec: the declaration of [Processor] is not among
    the sources.  These are the fields [FinalizeEPUB] reads: [tmpDir], the
    staging directory of the spec; [overwrite], its overwrite flag; and
    [envDebug], for [p.env.Debug], its debug mode.  (The logger [p.env.Log]
    is left out: a warning changes nothing here.) *)
Record Processor : Type := {
  tmpDir : path;
  overwrite : bool;
  envDebug : bool
}.

(** The closure [saveFile] (lines 43-90); [content] is the variable it
    captures.  Its arguments [info] and [err] are given together: when [err]
    is not nil the closure returns it without a look at [info].  The two
    [filepath.ToSlash] forms it compares are equal when the paths are, and
    [filepath.Rel] does not fail on paths from the root. *)
Definition saveFile (p : Processor) (fname : path) (w : World) (content : bool)
    (pth : path) (info : FileInfo + error) (epub : Zip.Writer)
    : option error * Zip.Writer :=
  match info with
  | inr err => (Some err, epub)
  | inl info =>
    if negb (IsRegular info) then (None, epub)
    else if bool_decide (pth = fname) then (None, epub)
    else if content && bool_decide (DirOf pth = tmpDir p) then (None, epub)
    else
      let rel := ToSlash (Rel (tmpDir p) pth) in
      let created :=
        if negb content
        then Zip.CreateHeader w pth
               {| Zip.HName := Name info; Zip.HMethod := Zip.Store |} epub
        else Zip.Create w pth rel epub in
      match created with
      | inr err => (Some err, epub)
      | inl (dst, epub1) =>
        match Open w pth with
        | inr err => (Some err, epub1)
        | inl r => Zip.Copy w dst r epub1
        end
      end
  end.

(** One call of the walk function by [filepath.Walk]: with the error of
    [Lstat], or of reading the directory, when there is one. *)
Definition visit (p : Processor) (fname : path) (w : World) (pth : path)
    (epub : Zip.Writer) : option error * Zip.Writer :=
  match Lstat w pth with
  | inr err => saveFile p fname w true pth (inr err) epub
  | inl info =>
    match (if IsDir info then fault w OpReadDir pth else None) with
    | Some e => saveFile p fname w true pth (inr (PathError OpReadDir pth e)) epub
    | None => saveFile p fname w true pth (inl info) epub
    end
  end.

(** The calls of the walk, one path after the other: [saveFile] returns
    every error it is given, so the walk ends at the first error. *)
Fixpoint walkAll (p : Processor) (fname : path) (w : World)
    (todo : list path) (epub : Zip.Writer) : option error * Zip.Writer :=
  match todo with
  | [] => (None, epub)
  | pth :: todo' =>
    match visit p fname w pth epub with
    | (Some err, epub') => (Some err, epub')
    | (None, epub') => walkAll p fname w todo' epub'
    end
  end.

(** [filepath.Walk(p.tmpDir, saveFile)] with [content] set (line 104). *)
Definition Walk (p : Processor) (fname : path) (w : World)
    (epub : Zip.Writer) : option error * Zip.Writer :=
  walkAll p fname w (walkOrder w (tmpDir p)) epub.

(** The first statement of [FinalizeEPUB] (lines 16-30): the output path
    is checked, and removed or its directory created. *)
Definition prepareOutput (p : Processor) (fname : path) (w : World)
    : option error * World :=
  match Stat w fname with
  | inl _ =>
    if negb (envDebug p) && negb (overwrite p)
    then (Some (Errorf "output file already exists: %s" fname), w)
    else Remove w fname
  | inr err =>
    if negb (IsNotExist err) then (Some err, w)
    else
      match MkdirAll w (DirOf fname) with
      | (Some err, w') => (Some (Wrap err "unable to create output directory"), w')
      | (None, w') => (None, w')
      end
  end.

(** [FinalizeEPUB] (lines 14-108): the error returned, the file system
    left, and the members of the archive written to [fname] once the
    deferred [Close] calls have run ([None] when [fname] was not opened). *)
Definition FinalizeEPUB (p : Processor) (fname : path) (w : World)
    : option error * World * option Zip.Writer :=
  match prepareOutput p fname w with
  | (Some err, w1) => (Some err, w1, None)
  | (None, w1) =>
    match Create w1 fname with
    | (Some err, w2) => (Some (Wrapf err "unable to create EPUB: %s" fname), w2, None)
    | (None, w2) =>
      let mt := Join (tmpDir p) "mimetype" in
      match Stat w2 mt with
      | inr err => (Some (Wrap err "unable to find mimetype file"), w2, Some [])
      | inl info =>
        match saveFile p fname w2 false mt (inl info) [] with
        | (Some err, epub) =>
          (Some (Wrap err "unable to add mimetype to EPUB"), w2, Some epub)
        | (None, epub) =>
          match Walk p fname w2 epub with
          | (Some err, epub') =>
            (Some (Wrap err "unable to add file to EPUB"), w2, Some epub')
          | (None, epub') => (None, w2, Some epub')
          end
        end
      end
    end
  end.

End Epub.

(** ** textutils.go: the small helpers *)

Module StringsExt.

Import Strings.

(** [strings.Split(s, sep)] for a non-empty [sep], as the code calls it:
    [s] is cut at the occurrences of [sep], found from left to right without
    overlap.  The result is the piece being read and the pieces after it;
    [skip] counts the bytes of a matched [sep] still to be dropped. *)
Fixpoint splitFrom (skip : nat) (s sep : string) : string * list string :=
  match s with
  | EmptyString => (EmptyString, [])
  | String c s' =>
    match skip with
    | S k => splitFrom k s' sep
    | O =>
      if HasPrefix s sep
      then (EmptyString,
            let '(piece, pieces) := splitFrom (String.length sep - 1) s' sep in
            piece :: pieces)
      else let '(piece, pieces) := splitFrom 0 s' sep in
           (String c piece, pieces)
    end
  end.

Definition Split (s sep : string) : list string :=
  let '(piece, pieces) := splitFrom 0 s sep in piece :: pieces.

(** [strings.Join(elems, sep)] *)
Fixpoint Join (elems : list string) (sep : string) : string :=
  match elems with
  | [] => EmptyString
  | [x] => x
  | x :: rest => x +:+ sep +:+ Join rest sep
  end.

(** [strings.NewReplacer(old1, new1, ...)] when every [old] is a single
    byte: the first pair with a given byte counts. *)
Fixpoint replacement (pairs : list (ascii * string)) (c : ascii) : option string :=
  match pairs with
  | [] => None
  | (old, new) :: pairs' =>
    if Ascii.eqb old c then Some new else replacement pairs' c
  end.

(** The method [Replace] of such a replacer: byte by byte. *)
Fixpoint ReplacerReplace (pairs : list (ascii * string)) (s : string) : string :=
  match s with
  | EmptyString => EmptyString
  | String c s' =>
    match replacement pairs c with
    | Some new => new +:+ ReplacerReplace pairs s'
    | None => String c (ReplacerReplace pairs s')
    end
  end.

(** [strconv.FormatInt(i, 10)], and the verb [%d] of [fmt]. *)
Definition FormatInt (i : Z) : string := pretty i.

(** [string(utf8.RuneError)]: U+FFFD in UTF-8. *)
Definition RuneErrorString : string :=
  String "239" (String "191" (String "189" EmptyString)).

End StringsExt.

Module Helpers.

Import Strings StringsExt.

(** The bytes '\r', '\n' and ' '. *)
Definition CR : ascii := "013"%char.
Definition LF : ascii := "010"%char.
Definition SP : ascii := " "%char.

(** [math.MaxInt32] *)
Definition MaxInt32 : Z := 2147483647.

(** [type htmlHeader int] (lines 21-44): the methods on the pointer,
    [Inc] and [Dec], are given as the new value of [*hl]. *)
Definition Inc (hl : Z) : Z := if hl <? MaxInt32 then hl + 1 else hl.

Definition Dec (hl : Z) : Z := if 0 <? hl then hl - 1 else hl.

Definition Int (hl : Z) : Z := hl.

(** [func (hl htmlHeader) String(prefix string) string]:
    [fmt.Sprintf("%s%d", prefix, hl)] once [hl] is capped at 6. *)
Definition htmlHeader_String (hl : Z) (prefix : string) : string :=
  let hl := if 6 <? hl then 6 else hl in
  prefix +:+ FormatInt hl.

(** [GetFirstRuneString] (lines 47-52): the loop returns in its first
    round, with the first rune written back as a string: the bytes it was
    read from, or U+FFFD for a byte that is no valid UTF-8. *)
Definition GetFirstRuneString (in_ : string) : string :=
  match in_ with
  | EmptyString => EmptyString
  | String c _ =>
    if (N_of_ascii c <? 0x80)%N then String c EmptyString
    else match (Utf8.runeWidth in_ - 1)%nat with
         | O => RuneErrorString
         | S k => slice in_ 0 (Z.of_nat (S (S k)))
         end
  end.

(** [nameCleaner] (line 61) *)
Definition nameCleaner : list (ascii * string) :=
  [ (CR, EmptyString); (LF, EmptyString); (SP, EmptyString) ].

(** [SanitizeName] (lines 64-67) *)
Definition SanitizeName (in_ : string) : string * bool :=
  let out := ReplacerReplace nameCleaner in_ in
  (out, negb (String.eqb out in_)).

(** [AllLines] (lines 77-79) *)
Definition AllLines (in_ : string) : string :=
  Join (Split in_ (String LF EmptyString)) (String SP EmptyString).

(** [FirstLine] (lines 82-84): the element of index 0; [None] stands for
    the panic of an index out of range. *)
Definition FirstLine (in_ : string) : option string :=
  Split in_ (String LF EmptyString) !! 0%nat.

(** [AppendIfMissing] (lines 235-242) *)
Fixpoint found (slice : list string) (str : string) : bool :=
  match slice with
  | [] => false
  | s :: slice' => if String.eqb s str then true else found slice' str
  end.

Definition AppendIfMissing (slice : list string) (str : string) : list string :=
  if found slice str then slice else slice ++ [str].

End Helpers.

(** ** enums_string.go: the generated [String] methods *)

Module Enums.

Import Strings StringsExt.

(** [s[lo:hi]], with the panic of a slice out of range as [None]. *)
Definition sliceChecked (s : string) (lo hi : Z) : option string :=
  if (0 <=? lo) && (lo <=? hi) && (hi <=? len s)
  then Some (slice s lo hi) else None.

(** The body the generator gives every [String] method, for the type
    called [typeName] with the names [name] cut at [index]; [None] stands for
    a panic (index or slice out of range). *)
Definition stringerString (typeName name : string) (index : list Z) (i : Z)
    : option string :=
  if (i <? 0) || (Z.of_nat (length index) - 1 <=? i)
  then Some (typeName +:+ "(" +:+ FormatInt i +:+ ")")
  else match index !! Z.to_nat i, index !! Z.to_nat (i + 1) with
       | Some lo, Some hi => sliceChecked name lo hi
       | _, _ => None
       end.

Definition _OutputFmt_name : string := "epubkepubazw3mobikfx".
Definition _OutputFmt_index : list Z := [0; 4; 9; 13; 17; 20; 20].
Definition OutputFmt_String : Z -> option string :=
  stringerString "OutputFmt" _OutputFmt_name _OutputFmt_index.

Definition _NotesFmt_name : string := "defaultinlineblockfloatfloat-old".
Definition _NotesFmt_index : list Z := [0; 7; 13; 18; 23; 32; 32].
Definition NotesFmt_String : Z -> option string :=
  stringerString "NotesFmt" _NotesFmt_name _NotesFmt_index.

Definition _TOCPlacement_name : string := "nonebeforeafter".
Definition _TOCPlacement_index : list Z := [0; 4; 10; 15; 15].
Definition TOCPlacement_String : Z -> option string :=
  stringerString "TOCPlacement" _TOCPlacement_name _TOCPlacement_index.

Definition _TOCType_name : string := "normalkindleflat".
Definition _TOCType_index : list Z := [0; 6; 12; 16; 16].
Definition TOCType_String : Z -> option string :=
  stringerString "TOCType" _TOCType_name _TOCType_index.

Definition _APNXGeneration_name : string := "noneeinkapp".
Definition _APNXGeneration_index : list Z := [0; 4; 8; 11; 11].
Definition APNXGeneration_String : Z -> option string :=
  stringerString "APNXGeneration" _APNXGeneration_name _APNXGeneration_index.

Definition _StampPlacement_name : string := "nonetopmiddlebottom".
Definition _StampPlacement_index : list Z := [0; 4; 7; 13; 19; 19].
Definition StampPlacement_String : Z -> option string :=
  stringerString "StampPlacement" _StampPlacement_name _StampPlacement_index.

End Enums.

(** ** config/os_windows.go: [CleanFileName] *)

Module Config.

Import Strings StringsExt.

(** [toRemove] (line 16): on Windows [os.PathSeparator] is '\' and
    [os.PathListSeparator] is ';'. *)
Definition toRemove : string :=
  ".<>" +:+ String "034" EmptyString +:+ ":/\|?*" +:+ "\" +:+ ";".

(** [strings.IndexRune(toRemove, sym) != -1] for a rune [sym] below 0x80,
    given by its byte.  (For any other rune, [utf8.RuneError] included, the
    index is -1: [toRemove] has bytes below 0x80 only.) *)
Definition removed (c : ascii) : bool :=
  negb (Index toRemove (String c EmptyString) =? -1).

(** [strings.Map] with the function of [CleanFileName], rune by rune: a
    rune for which the function returns -1 is dropped; any other rune is
    written back, which gives the bytes it was read from, or U+FFFD for a
    byte that is no valid UTF-8.  [rem] counts the bytes of the current rune
    still to be copied. *)
Fixpoint mapFrom (rem : nat) (s : string) : string :=
  match s with
  | EmptyString => EmptyString
  | String c s' =>
    match rem with
    | S k => String c (mapFrom k s')
    | O =>
      if (N_of_ascii c <? 0x80)%N
      then if removed c then mapFrom 0 s' else String c (mapFrom 0 s')
      else match (Utf8.runeWidth s - 1)%nat with
           | O => RuneErrorString +:+ mapFrom 0 s'
           | S k => String c (mapFrom (S k) s')
           end
    end
  end.

(** [CleanFileName] (lines 19-26) *)
Definition CleanFileName (in_ : string) : string := mapFrom 0 in_.

End Config.

Import Strings TextUtils.

(** * Vocabulary of the specification *)

(** The bytes of a string, as a list. *)
Definition bytes (s : string) : list ascii := list_ascii_of_string s.

(** The loop of [scanFrom] run over the bytes one by one. *)
Fixpoint scanBytes (i : Z) (prev : ascii) (s : string) (bopen : Z) : Z * Z :=
  match s with
  | EmptyString => (bopen, -1)
  | String c s' =>
    if Ascii.eqb c "{"%char && notEscaped i prev then scanBytes (i + 1) c s' i
    else if Ascii.eqb c "}"%char && notEscaped i prev then (bopen, i)
    else scanBytes (i + 1) c s' bopen
  end.

(** The next [n] bytes of [s] are at least 0x80. *)
Fixpoint highBytes (n : nat) (s : string) : Prop :=
  match n, s with
  | S k, String c s' => (0x80 <= N_of_ascii c)%N /\ highBytes k s'
  | _, _ => True
  end.

(** The byte [c] occurs at index [i] of [s] and is not escaped: the
    condition [in[i] == c && (i == 0 || i > 0 && in[i-1] != '\\')]. *)
Definition unescapedAt (s : string) (c : ascii) (i : Z) : Prop :=
  at_ s i = Some c /\ (i = 0 \/ at_ s (i - 1) <> Some "\"%char).

(** [s] is what is left of [whole] from index [i] on, and [prev] the byte
    before it. *)
Definition suffixAt (whole : string) (i : Z) (prev : ascii) (s : string) : Prop :=
  0 <= i /\
  (forall k, 0 <= k -> at_ whole (i + k) = at_ s k) /\
  (0 < i -> at_ whole (i - 1) = Some prev).

(** [k] occurs in [s] as a substring. *)
Definition occursIn (k s : string) : Prop :=
  exists pre post, s = pre +:+ k +:+ post.

(** The number of bytes [b] in [s]. *)
Fixpoint countByte (b : ascii) (s : string) : nat :=
  match s with
  | EmptyString => 0
  | String c s' => (if Ascii.eqb c b then 1 else 0) + countByte b s'
  end.

(** The number of bracket pairs of a pattern: every '{' and every '}' byte
    counts, escaped or not. *)
Definition bracketPairs (s : string) : nat :=
  Nat.min (countByte "{" s) (countByte "}" s).

(** No value of the map contains the byte [b]. *)
Definition valuesFree (b : ascii) (m : gmap string string) : Prop :=
  map_Forall (fun _ v => countByte b v = 0%nat) m.

(** The mappings of the examples. *)
Definition mapX (v : string) : gmap string string := {[ "#x" := v ]}.

Definition authorsMap : gmap string string :=
  <[ "#author" := "A" ]> (<[ "#authors" := "A and B" ]> ∅).



(** [i] is the first index from [from] on with an unescaped [c]. *)
Definition firstUnescaped (s : string) (c : ascii) (from i : Z) : Prop :=
  from <= i /\ unescapedAt s c i /\
  forall j, from <= j < i -> ~ unescapedAt s c j.

(** The pattern has no unescaped '{' followed by an unescaped '}'. *)
Definition noBlockPair (s : string) : Prop :=
  forall i j, i < j -> unescapedAt s "{" i -> unescapedAt s "}" j -> False.

Import FS Epub.

(** The member was written with the [Deflate] method. *)
Definition deflated (e : Zip.Entry) : Prop :=
  Zip.HMethod (Zip.Header e) = Zip.Deflate.

(** The anchor member: named [mimetype], stored, with the bytes [d]. *)
Definition anchor (d : string) : Zip.Entry :=
  {| Zip.Header := {| Zip.HName := "mimetype"; Zip.HMethod := Zip.Store |};
     Zip.Data := d |}.

(** A staging directory [tmp] with some content, and an empty directory
    [out]; [mt] is what there is at [tmp/mimetype], if anything. *)
Definition stagingFiles (mt : option node) : gmap path node :=
  let content : gmap path node :=
    list_to_map
      [ (["tmp"], Dir);
        (["tmp"; "META-INF"], Dir);
        (["tmp"; "META-INF"; "container.xml"], File "<container/>");
        (["tmp"; "OEBPS"], Dir);
        (["tmp"; "OEBPS"; "content.opf"], File "<package/>");
        (["out"], Dir) ] in
  match mt with
  | Some n => <[ ["tmp"; "mimetype"] := n ]> content
  | None => content
  end.

(** That file system, with no failure of its own. *)
Definition stagingWorld (mt : option node) : World :=
  {| files := stagingFiles mt; fault := fun _ _ => None |}.

(** A processor on [tmp] that may not overwrite, and an output path. *)
Definition converter : Processor :=
  {| tmpDir := ["tmp"]; overwrite := false; envDebug := false |}.

Definition bookPath : path := ["out"; "book.epub"].

(** The error returned and the archive written. *)
Definition errorOf (r : option error * World * option Zip.Writer) : option error := r.1.1.

Definition archiveOf (r : option error * World * option Zip.Writer) : option Zip.Writer := r.2.

(** C7 as stated: whenever [FinalizeEPUB] succeeds, the archive starts with
    the anchor member. *)
Definition anchorFirstOnSuccess (p : Processor) (fname : path) (w : World) : Prop :=
  forall epub,
    errorOf (FinalizeEPUB p fname w) = None ->
    archiveOf (FinalizeEPUB p fname w) = Some epub ->
    exists d rest, epub = anchor d :: rest.

(** The staging world in which the output file exists already. *)
Definition existingWorld : World :=
  {| files := <[ bookPath := File "an earlier book" ]> (stagingFiles None);
     fault := fun _ _ => None |}.



(** What [FinalizeEPUB] does once the output file is open, in the file
    system [w2] it has then. *)
Definition writeArchive (p : Processor) (fname : path) (w2 : World)
    : option error * World * option Zip.Writer :=
  match Stat w2 (Join (tmpDir p) "mimetype") with
  | inr err => (Some (Wrap err "unable to find mimetype file"), w2, Some [])
  | inl info =>
    match saveFile p fname w2 false (Join (tmpDir p) "mimetype") (inl info) [] with
    | (Some err, epub) =>
      (Some (Wrap err "unable to add mimetype to EPUB"), w2, Some epub)
    | (None, epub) =>
      match Walk p fname w2 epub with
      | (Some err, epub') =>
        (Some (Wrap err "unable to add file to EPUB"), w2, Some epub')
      | (None, epub') => (None, w2, Some epub')
      end
    end
  end.

(** [f] applied to every byte of [s]. *)
Fixpoint mapBytes (f : ascii -> ascii) (s : string) : string :=
  match s with
  | EmptyString => EmptyString
  | String c s' => String (f c) (mapBytes f s')
  end.

(** A newline becomes a space. *)
Definition spaceForNewline (c : ascii) : ascii :=
  if Ascii.eqb c Helpers.LF then Helpers.SP else c.

(** [s] is valid UTF-8, once the [rem] bytes that end a sequence begun
    before it are passed: the decoder finds no byte it has to take for
    [utf8.RuneError]. *)
Fixpoint validUtf8 (rem : nat) (s : string) : bool :=
  match s with
  | EmptyString => true
  | String c s' =>
    match rem with
    | S k => validUtf8 k s'
    | O =>
      if (N_of_ascii c <? 0x80)%N then validUtf8 0 s'
      else match (Utf8.runeWidth s - 1)%nat with
           | O => false
           | S k => validUtf8 (S k) s'
           end
    end
  end.

(** Every byte of [s] passes the test [p]. *)
Fixpoint allBytes (p : ascii -> bool) (s : string) : bool :=
  match s with
  | EmptyString => true
  | String c s' => p c && allBytes p s'
  end.

(** The byte [c] may stay in a file name. *)
Definition kept (c : ascii) : bool := negb (Config.removed c).

(** * Properties of the template engine *)

(** ** The library functions on examples *)

Example Index_found : Index "chicken" "ken" = 4.
Proof. reflexivity. Qed.

Example Index_absent : Index "chicken" "dmr" = -1.
Proof. reflexivity. Qed.

Example Index_empty : Index "chicken" "" = 0.
Proof. reflexivity. Qed.

Example Replace_all : Replace "oink oink oink" "oink" "moo" = "moo moo moo".
Proof. reflexivity. Qed.

Example Replace_no_overlap : Replace "aXXXb" "XX" "-" = "a-Xb".
Proof. reflexivity. Qed.

(** With an empty pattern the new text goes between the runes, not between
    the two bytes of [é]. *)
Example Replace_empty_old : Replace "aéb" "" "-" = "-a-é-b-".
Proof. reflexivity. Qed.

Example runeWidth_two : Utf8.runeWidth "éb" = 2%nat.
Proof. reflexivity. Qed.

Example Strings_sorted : Sort.Strings ["#title"; "#authors"; "#author"] =
                         ["#author"; "#authors"; "#title"].
Proof. reflexivity. Qed.

Example scan_escaped : scan "a\{b{c}d" = (4, 6).
Proof. reflexivity. Qed.

Example ReplaceKeywords_series :
  ReplaceKeywords 1 "#title{ (#series)}"
    (<[ "#title" := "T" ]> (<[ "#series" := "" ]> ∅)) = Some "T" /\
  ReplaceKeywords 1 "#title{ (#series)}"
    (<[ "#title" := "T" ]> (<[ "#series" := "S" ]> ∅)) = Some "T (S)".
Proof. split; by vm_compute. Qed.

(** ** Strings as lists of bytes *)

Lemma bytes_inj a b : bytes a = bytes b -> a = b.
Proof.
  intros H. rewrite <- (string_of_list_ascii_of_string a),
    <- (string_of_list_ascii_of_string b). unfold bytes in H. by rewrite H.
Qed.

Lemma bytes_cons c s : bytes (String c s) = c :: bytes s.
Proof. reflexivity. Qed.

Lemma app_cons_str c a b : String c a +:+ b = String c (a +:+ b).
Proof. reflexivity. Qed.

Lemma bytes_app a b : bytes (a +:+ b) = bytes a ++ bytes b.
Proof.
  induction a as [|c a IH]; [done|].
  rewrite app_cons_str, !bytes_cons, IH. done.
Qed.

Lemma length_bytes s : length (bytes s) = String.length s.
Proof. induction s as [|c s IH]; simpl; [done|]. by rewrite <- IH. Qed.

Lemma get_bytes s n : String.get n s = bytes s !! n.
Proof.
  revert n. induction s as [|c s IH]; intros [|n]; simpl; first [done | apply IH].
Qed.

Lemma bytes_substring s n m :
  bytes (substring n m s) = take m (drop n (bytes s)).
Proof.
  revert n m. induction s as [|c s IH]; intros n m.
  - change (bytes "") with (@nil ascii). rewrite drop_nil, take_nil.
    by destruct n, m.
  - destruct n as [|n]; simpl.
    + destruct m as [|m]; [done|].
      rewrite !bytes_cons, (IH 0%nat m), drop_0. done.
    + apply IH.
Qed.

Lemma at_cons_0 c s : at_ (String c s) 0 = Some c.
Proof. reflexivity. Qed.

Lemma at_cons_S c s i : 0 <= i -> at_ (String c s) (i + 1) = at_ s i.
Proof.
  intros Hi. unfold at_.
  destruct (Z.ltb_spec (i + 1) 0), (Z.ltb_spec i 0); try lia.
  replace (Z.to_nat (i + 1)) with (S (Z.to_nat i)) by lia. done.
Qed.

Lemma at_nil i : at_ "" i = None.
Proof. unfold at_. destruct (i <? 0); [done|]. by destruct (Z.to_nat i). Qed.

Lemma at_bytes s i : 0 <= i -> at_ s i = bytes s !! Z.to_nat i.
Proof.
  intros Hi. unfold at_. destruct (Z.ltb_spec i 0); [lia|]. apply get_bytes.
Qed.

Lemma at_Some_lt s i c : at_ s i = Some c -> 0 <= i < len s.
Proof.
  unfold at_, len. destruct (Z.ltb_spec i 0); [done|].
  rewrite get_bytes. intros Hl%lookup_lt_Some. rewrite length_bytes in Hl. lia.
Qed.

(** A string splits around any of its bytes. *)
Lemma split_at s i c :
  at_ s i = Some c ->
  s = slice s 0 i +:+ String c (slice s (i + 1) (len s)).
Proof.
  intros H. pose proof (at_Some_lt _ _ _ H) as Hi.
  rewrite at_bytes in H by lia.
  apply bytes_inj. unfold slice.
  rewrite bytes_app, bytes_cons, !bytes_substring. simpl. rewrite drop_0.
  replace (Z.to_nat (i - 0)) with (Z.to_nat i) by lia.
  replace (Z.to_nat (i + 1)) with (S (Z.to_nat i)) by lia.
  rewrite (take_ge (drop _ _)).
  2:{ rewrite length_drop, length_bytes. unfold len. lia. }
  rewrite <- (take_drop_middle _ _ _ H) at 1. done.
Qed.

(** ** The scanning loop *)

Lemma first_lo c sz lo hi :
  Utf8.first c = Some (sz, (lo, hi)) -> (0x80 <= lo)%N.
Proof.
  unfold Utf8.first. repeat case_match; intros ?; simplify_eq; lia.
Qed.

Lemma inRange_lo lo hi c :
  Utf8.inRange lo hi c = true -> (lo <= N_of_ascii c)%N.
Proof. unfold Utf8.inRange. intros [H _]%andb_prop. by apply N.leb_le. Qed.

Lemma runeWidth_highBytes c s :
  highBytes (Utf8.runeWidth (String c s) - 1) s.
Proof.
  unfold Utf8.runeWidth.
  destruct (Utf8.first c) as [[sz [lo hi]]|] eqn:F; [|exact I].
  apply first_lo in F.
  destruct s as [|s1 s]; [exact I|].
  destruct (Utf8.inRange lo hi s1) eqn:R1; [|exact I]. apply inRange_lo in R1.
  simpl negb. cbv iota.
  destruct (sz <=? 2)%nat; [simpl; split; [lia|exact I]|].
  destruct s as [|s2 s]; [exact I|].
  destruct (Utf8.inRange 128 191 s2) eqn:R2; [|exact I]. apply inRange_lo in R2.
  simpl negb. cbv iota.
  destruct (sz <=? 3)%nat; [simpl; repeat split; lia|].
  destruct s as [|s3 s]; [exact I|].
  destruct (Utf8.inRange 128 191 s3) eqn:R3; [|exact I]. apply inRange_lo in R3.
  simpl. repeat split; lia.
Qed.

Lemma high_not_brace c b :
  (0x80 <= N_of_ascii c)%N -> (N_of_ascii b < 0x80)%N -> Ascii.eqb c b = false.
Proof.
  intros Hc Hb. destruct (Ascii.eqb_spec c b) as [->|]; [lia|done].
Qed.

Lemma scanFrom_scanBytes s rem i prev bopen :
  highBytes rem s -> scanFrom rem i prev s bopen = scanBytes i prev s bopen.
Proof.
  revert rem i prev bopen.
  induction s as [|c s IH]; intros rem i prev bopen Hhi; [by destruct rem|].
  destruct rem as [|k]; simpl.
  - pose proof (runeWidth_highBytes c s) as Hn.
    rewrite !IH by exact Hn. done.
  - destruct Hhi as [Hc Hk].
    rewrite (high_not_brace c "{"), (high_not_brace c "}") by (done || (vm_compute; done)).
    simpl. by apply IH.
Qed.

Lemma scan_bytes s : scan s = scanBytes 0 zero s (-1).
Proof. apply scanFrom_scanBytes. by destruct s. Qed.

Lemma suffixAt_start s : suffixAt s 0 zero s.
Proof. split; [lia|]. split; [|lia]. intros k _. by rewrite Z.add_0_l. Qed.

(** The loop as it runs through a given input [whole]. *)
Section Scan.

Variable whole : string.

Lemma suffixAt_here i prev c s :
  suffixAt whole i prev (String c s) -> at_ whole i = Some c.
Proof.
  intros (Hi & Hk & _). specialize (Hk 0). rewrite Z.add_0_r in Hk.
  rewrite Hk by lia. apply at_cons_0.
Qed.

Lemma suffixAt_next i prev c s :
  suffixAt whole i prev (String c s) -> suffixAt whole (i + 1) c s.
Proof.
  intros H. pose proof (suffixAt_here _ _ _ _ H) as Hc.
  destruct H as (Hi & Hk & _). split; [lia|]. split.
  - intros k Hk0. replace (i + 1 + k) with (i + (k + 1)) by lia.
    rewrite Hk by lia. by apply at_cons_S.
  - intros _. by replace (i + 1 - 1) with i by lia.
Qed.

Lemma suffixAt_nil i prev j :
  suffixAt whole i prev "" -> i <= j -> at_ whole j = None.
Proof.
  intros (Hi & Hk & _) Hj. replace j with (i + (j - i)) by lia.
  rewrite Hk by lia. apply at_nil.
Qed.

Lemma unescaped_here i prev c s b :
  suffixAt whole i prev (String c s) ->
  Ascii.eqb c b && notEscaped i prev = true <-> unescapedAt whole b i.
Proof.
  intros H. pose proof (suffixAt_here _ _ _ _ H) as Hc.
  destruct H as (Hi & _ & Hp). unfold unescapedAt, notEscaped.
  rewrite Hc, andb_true_iff, orb_true_iff, andb_true_iff, negb_true_iff.
  rewrite Ascii.eqb_eq, Z.eqb_eq, Z.ltb_lt, Ascii.eqb_neq.
  split.
  - intros [-> [->|[H0 Hne]]]; split; auto.
    right. rewrite Hp by lia. congruence.
  - intros [[= ->] [->|Hne]]; split; auto.
    destruct (decide (i = 0)) as [->|]; [by left|right].
    split; [lia|]. rewrite Hp in Hne by lia. congruence.
Qed.

Lemma unescaped_here_false i prev c s b :
  suffixAt whole i prev (String c s) ->
  Ascii.eqb c b && notEscaped i prev = false -> ~ unescapedAt whole b i.
Proof.
  intros H Hf Hu. apply (unescaped_here _ _ _ _ _ H) in Hu. congruence.
Qed.

(** What the loop computes: [bclose] is the first unescaped '}' at or after
    [i] ([-1] when there is none), and [bopen] the last unescaped '{' at or
    after [i] that precedes it (the value on entry when there is none). *)
Lemma scanBytes_spec s : forall i prev bopen bo bc,
  suffixAt whole i prev s ->
  scanBytes i prev s bopen = (bo, bc) ->
  ((bc = -1 /\ forall j, i <= j -> ~ unescapedAt whole "}" j)
   \/ (i <= bc /\ unescapedAt whole "}" bc /\
       forall j, i <= j < bc -> ~ unescapedAt whole "}" j))
  /\
  ((bo = bopen /\
    forall j, i <= j -> bc = -1 \/ j < bc -> ~ unescapedAt whole "{" j)
   \/ (i <= bo /\ (bc = -1 \/ bo < bc) /\ unescapedAt whole "{" bo /\
       forall j, bo < j -> bc = -1 \/ j < bc -> ~ unescapedAt whole "{" j)).
Proof.
  induction s as [|c s IH]; intros i prev bopen bo bc Hsuf Hscan.
  - injection Hscan as <- <-. split; left; split; auto.
    + intros j Hj [Hat _]. by rewrite (suffixAt_nil _ _ _ Hsuf Hj) in Hat.
    + intros j Hj _ [Hat _]. by rewrite (suffixAt_nil _ _ _ Hsuf Hj) in Hat.
  - pose proof (suffixAt_next _ _ _ _ Hsuf) as Hnext.
    pose proof (suffixAt_here _ _ _ _ Hsuf) as Hc.
    assert (0 <= i) as Hi by apply Hsuf.
    simpl in Hscan.
    destruct (Ascii.eqb c "{" && notEscaped i prev) eqn:Hopen.
    + apply (unescaped_here _ _ _ _ _ Hsuf) in Hopen.
      assert (~ unescapedAt whole "}" i) as Hnc.
      { intros [Hat _]. destruct Hopen as [Hat' _]. congruence. }
      destruct (IH _ _ _ _ _ Hnext Hscan) as [Hcl Hop]. split.
      * destruct Hcl as [[-> Hno]|(Hle & Hu & Hno)]; [left|right].
        -- split; [done|]. intros j Hj.
           destruct (decide (j = i)) as [->|]; [done|]. apply Hno. lia.
        -- split; [lia|]. split; [done|]. intros j Hj.
           destruct (decide (j = i)) as [->|]; [done|]. apply Hno. lia.
      * right. destruct Hop as [[-> Hno]|(Hle & Hbc & Hu & Hno)].
        -- split; [lia|]. split; [|split; [done|]].
           ++ destruct Hcl as [[-> _]|(Hle & _)]; [by left|right; lia].
           ++ intros j Hj. apply Hno. lia.
        -- split; [lia|]. done.
    + destruct (Ascii.eqb c "}" && notEscaped i prev) eqn:Hclose.
      * injection Hscan as <- <-.
        apply (unescaped_here _ _ _ _ _ Hsuf) in Hclose. split.
        -- right. split; [lia|]. split; [done|]. intros j Hj. lia.
        -- left. split; [done|]. intros j Hj [?|?]; lia.
      * pose proof (unescaped_here_false _ _ _ _ _ Hsuf Hopen) as Hno.
        pose proof (unescaped_here_false _ _ _ _ _ Hsuf Hclose) as Hnc.
        destruct (IH _ _ _ _ _ Hnext Hscan) as [Hcl Hop]. split.
        -- destruct Hcl as [[-> Hn]|(Hle & Hu & Hn)]; [left|right].
           ++ split; [done|]. intros j Hj.
              destruct (decide (j = i)) as [->|]; [done|]. apply Hn. lia.
           ++ split; [lia|]. split; [done|]. intros j Hj.
              destruct (decide (j = i)) as [->|]; [done|]. apply Hn. lia.
        -- destruct Hop as [[-> Hn]|(Hle & Hbc & Hu & Hn)]; [left|right].
           ++ split; [done|]. intros j Hj Hb.
              destruct (decide (j = i)) as [->|]; [done|]. apply Hn; [lia|done].
           ++ split; [lia|]. done.
Qed.

End Scan.

(** The same for the whole input, when a block is found. *)
Lemma hasBlock_iff bo bc :
  hasBlock (bo, bc) = true <-> 0 <= bo /\ bo < bc.
Proof.
  unfold hasBlock. simpl.
  rewrite !andb_true_iff, Z.leb_le, !Z.ltb_lt. lia.
Qed.

Lemma scan_block s bo bc :
  scan s = (bo, bc) -> hasBlock (bo, bc) = true ->
  unescapedAt s "}" bc /\ (forall j, j < bc -> ~ unescapedAt s "}" j) /\
  unescapedAt s "{" bo /\ (forall j, bo < j < bc -> ~ unescapedAt s "{" j).
Proof.
  rewrite scan_bytes, hasBlock_iff. intros Hscan [Hbo Hlt].
  destruct (scanBytes_spec s s _ _ _ _ _ (suffixAt_start s) Hscan)
    as [[[-> _]|(_ & Hc & Hnc)] Hop]; [lia|].
  destruct Hop as [[-> _]|(_ & _ & Ho & Hno)]; [lia|].
  repeat split; try apply Hc; try apply Ho.
  - intros j Hj Hu. destruct (Z.lt_ge_cases j 0) as [Hneg|Hpos].
    + destruct Hu as [Hat%at_Some_lt _]. lia.
    + by apply (Hnc j).
  - intros j Hj. apply Hno; [lia|right; lia].
Qed.

Lemma scan_no_block s :
  (forall i j, i < j -> unescapedAt s "{" i -> unescapedAt s "}" j -> False) ->
  hasBlock (scan s) = false.
Proof.
  intros Hno. destruct (scan s) as [bo bc] eqn:Hscan.
  destruct (hasBlock (bo, bc)) eqn:Hb; [exfalso|done].
  destruct (scan_block _ _ _ Hscan Hb) as (Hc & _ & Ho & _).
  apply hasBlock_iff in Hb. eapply Hno; [|exact Ho|exact Hc]. lia.
Qed.

(** ** Substrings and [strings.Index] *)

Lemma HasPrefix_spec s p : HasPrefix s p = true <-> exists post, s = p +:+ post.
Proof.
  unfold HasPrefix. revert s. induction p as [|c p IH]; intros s.
  - split; [intros _; by exists s|by destruct s].
  - destruct s as [|d s]; simpl.
    + split; [done|]. by intros [post [=]].
    + destruct (ascii_dec c d) as [->|Hne].
      * rewrite IH. split; intros [post Hp]; exists post.
        -- by rewrite app_cons_str, <- Hp.
        -- rewrite app_cons_str in Hp. by injection Hp.
      * split; [done|]. intros [post Hp]. rewrite app_cons_str in Hp.
        injection Hp as -> _. done.
Qed.

Lemma occursIn_cons k c s :
  occursIn k (String c s) <-> HasPrefix (String c s) k = true \/ occursIn k s.
Proof.
  rewrite HasPrefix_spec. split.
  - intros [[|c' pre] [post Hp]].
    + left. by exists post.
    + right. rewrite app_cons_str in Hp. injection Hp as _ ->.
      by exists pre, post.
  - intros [[post Hp]|(pre & post & ->)].
    + by exists "", post.
    + by exists (String c pre), post.
Qed.

Lemma occursIn_nil k : occursIn k "" <-> HasPrefix "" k = true.
Proof.
  rewrite HasPrefix_spec. split.
  - intros ([|c pre] & post & Hp); [by exists post|done].
  - intros [post Hp]. by exists "", post.
Qed.

Lemma Index_nil k : Index "" k = if HasPrefix "" k then 0 else -1.
Proof. reflexivity. Qed.

Lemma Index_cons c s k :
  Index (String c s) k =
  if HasPrefix (String c s) k then 0
  else if Index s k =? -1 then -1 else Index s k + 1.
Proof. reflexivity. Qed.

Lemma Index_ge s k : -1 <= Index s k.
Proof.
  induction s as [|c s IH].
  - rewrite Index_nil. by destruct (HasPrefix "" k).
  - rewrite Index_cons. destruct (HasPrefix (String c s) k); [done|].
    destruct (Z.eqb_spec (Index s k) (-1)); lia.
Qed.

Lemma Index_none s k : Index s k = -1 <-> ~ occursIn k s.
Proof.
  induction s as [|c s IH].
  - rewrite occursIn_nil, Index_nil. by destruct (HasPrefix "" k).
  - rewrite occursIn_cons, Index_cons.
    destruct (HasPrefix (String c s) k).
    + split; [done|]. intros H. destruct H. by left.
    + pose proof (Index_ge s k).
      destruct (Z.eqb_spec (Index s k) (-1)) as [He|Hne].
      * split; [|done]. intros _ [?|Ho]; [done|]. by apply IH.
      * split; [lia|]. intros Hno. exfalso. apply Hne, IH. tauto.
Qed.

(** ** Counting braces *)

Lemma countByte_app b s t :
  countByte b (s +:+ t) = (countByte b s + countByte b t)%nat.
Proof.
  induction s as [|c s IH]; [done|].
  rewrite app_cons_str. simpl. rewrite IH. lia.
Qed.

Lemma countByte_replaceFrom b s old new skip :
  countByte b new = 0%nat ->
  (countByte b (replaceFrom skip s old new) <= countByte b s)%nat.
Proof.
  intros Hnew. revert skip.
  induction s as [|c s IH]; intros skip; [done|].
  cbn [replaceFrom]. destruct skip as [|k].
  - destruct (HasPrefix (String c s) old).
    + rewrite countByte_app, Hnew. simpl.
      specialize (IH (String.length old - 1)%nat). lia.
    + simpl. specialize (IH 0%nat). lia.
  - simpl. specialize (IH k). lia.
Qed.

Lemma countByte_insertAfterRunes b s new rem :
  countByte b new = 0%nat ->
  (countByte b (insertAfterRunes rem s new) <= countByte b s)%nat.
Proof.
  intros Hnew. revert rem.
  induction s as [|c s IH]; intros rem; [done|].
  cbn [insertAfterRunes].
  destruct (_ <=? 1)%nat; simpl.
  - rewrite countByte_app, Hnew. specialize (IH 0%nat). simpl. lia.
  - match goal with |- context [insertAfterRunes ?r s new] => specialize (IH r) end.
    lia.
Qed.

Lemma countByte_Replace b s old new :
  countByte b new = 0%nat ->
  (countByte b (Replace s old new) <= countByte b s)%nat.
Proof.
  intros Hnew. unfold Replace. destruct (String.eqb old new); [done|].
  destruct old.
  - rewrite countByte_app, Hnew. apply countByte_insertAfterRunes, Hnew.
  - apply countByte_replaceFrom, Hnew.
Qed.

(** ** Flat expansion *)

Lemma elem_of_sortedKeys m k : k ∈ sortedKeys m <-> is_Some (m !! k).
Proof.
  unfold sortedKeys, Sort.Strings. rewrite merge_sort_Permutation.
  rewrite list_elem_of_fmap. split.
  - intros [[k' v] [-> Hin%elem_of_map_to_list]]. by exists v.
  - intros [v Hv]. exists (k, v). split; [done|]. by apply elem_of_map_to_list.
Qed.

Lemma elem_of_expansionOrder m k : k ∈ expansionOrder m <-> is_Some (m !! k).
Proof. unfold expansionOrder. by rewrite elem_of_reverse, elem_of_sortedKeys. Qed.

Lemma expandKeyword_absent s k v : Index s k = -1 -> expandKeyword s k v = (s, false).
Proof. intros H. unfold expandKeyword. by rewrite H. Qed.

Lemma foldl_expandStep_absent m s l :
  (forall k, k ∈ l -> Index s k = -1) ->
  foldl (expandStep m) (s, false) l = (s, false).
Proof.
  induction l as [|k l IH]; intros H; [done|].
  cbn [foldl]. unfold expandStep at 2.
  rewrite expandKeyword_absent by (apply H; left).
  apply IH. intros k' Hk'. apply H. by right.
Qed.

(** No key of the map occurs in the input: the flat expansion is empty. *)
Lemma expandAll_absent s m :
  (forall k, is_Some (m !! k) -> ~ occursIn k s) -> expandAll s m = "".
Proof.
  intros H. unfold expandAll. rewrite foldl_expandStep_absent; [done|].
  intros k Hk%elem_of_expansionOrder. by apply Index_none, H.
Qed.

Lemma countByte_expandStep b m acc k :
  valuesFree b m ->
  (countByte b (expandStep m acc k).1 <= countByte b acc.1)%nat.
Proof.
  intros Hm. destruct acc as [s e]. unfold expandStep, expandKeyword.
  destruct (negb _); simpl; [|done].
  apply countByte_Replace. destruct (m !! k) as [v|] eqn:Hk; [|done].
  by apply (Hm k).
Qed.

Lemma countByte_foldl_expandStep b m l acc :
  valuesFree b m ->
  (countByte b (foldl (expandStep m) acc l).1 <= countByte b acc.1)%nat.
Proof.
  intros Hm. revert acc. induction l as [|k l IH]; intros acc; [done|].
  cbn [foldl]. etrans; [apply IH|]. by apply countByte_expandStep.
Qed.

Lemma countByte_expandAll b s m :
  valuesFree b m -> (countByte b (expandAll s m) <= countByte b s)%nat.
Proof.
  intros Hm. unfold expandAll.
  pose proof (countByte_foldl_expandStep b m (expansionOrder m) (s, false) Hm) as H.
  destruct (foldl _ _ _) as [out e]. destruct e; simpl in *; lia.
Qed.

(** ** The recursion of [ReplaceKeywords] *)

Lemma ReplaceKeywords_flat n s m :
  hasBlock (scan s) = false -> ReplaceKeywords n s m = Some (expandAll s m).
Proof. intros H. destruct n; cbn [ReplaceKeywords]; by rewrite H. Qed.

Lemma ReplaceKeywords_block n s m :
  hasBlock (scan s) = true ->
  ReplaceKeywords (S n) s m = ReplaceKeywords n (rewrite s m (scan s)) m.
Proof. intros H. cbn [ReplaceKeywords]. by rewrite H. Qed.

Lemma ReplaceKeywords_block_0 s m :
  hasBlock (scan s) = true -> ReplaceKeywords 0 s m = None.
Proof. intros H. cbn [ReplaceKeywords]. by rewrite H. Qed.

(** The result does not depend on the fuel, once there is enough of it. *)
Lemma ReplaceKeywords_mono n n' s m r :
  ReplaceKeywords n s m = Some r -> (n <= n')%nat ->
  ReplaceKeywords n' s m = Some r.
Proof.
  revert n' s. induction n as [|n IH]; intros n' s Hr Hle.
  - destruct (hasBlock (scan s)) eqn:Hb.
    + by rewrite ReplaceKeywords_block_0 in Hr.
    + rewrite ReplaceKeywords_flat in * by done. done.
  - destruct (hasBlock (scan s)) eqn:Hb.
    + destruct n' as [|n']; [lia|].
      rewrite ReplaceKeywords_block in * by done. apply IH; [done|lia].
    + rewrite ReplaceKeywords_flat in * by done. done.
Qed.

(** A string splits around two of its bytes. *)
Lemma split_at2 s i j c d :
  0 <= i < j -> at_ s i = Some c -> at_ s j = Some d ->
  s = slice s 0 i +:+ String c (slice s (i + 1) j
        +:+ String d (slice s (j + 1) (len s))).
Proof.
  intros Hij Hi Hj. pose proof (at_Some_lt _ _ _ Hj) as Hjl.
  rewrite at_bytes in Hi, Hj by lia.
  apply bytes_inj. unfold slice, len in *.
  rewrite bytes_app, bytes_cons, bytes_app, bytes_cons, !bytes_substring.
  rewrite <- length_bytes in *. set (l := bytes s) in *.
  replace (Z.to_nat (i - 0)) with (Z.to_nat i) by lia.
  replace (Z.to_nat (i + 1)) with (S (Z.to_nat i)) by lia.
  replace (Z.to_nat (j + 1)) with (S (Z.to_nat j)) by lia.
  replace (Z.to_nat (j - (i + 1))) with (Z.to_nat j - S (Z.to_nat i))%nat by lia.
  assert (Z.to_nat i < Z.to_nat j)%nat as Hlt by lia.
  rewrite (take_ge (drop (S (Z.to_nat j)) l)) by (rewrite length_drop; lia).
  clear Hjl Hij. revert Hi Hj Hlt.
  generalize (Z.to_nat i) (Z.to_nat j). intros ni nj Hi Hj Hlt.
  simpl. rewrite drop_0, take_drop_commute.
  replace (S ni + (nj - S ni))%nat with nj by lia.
  rewrite <- (take_drop_middle l nj d Hj) at 1.
  assert (take nj l !! ni = Some c) as Hi' by (by rewrite lookup_take_lt).
  rewrite <- (take_drop_middle (take nj l) ni c Hi') at 1.
  rewrite take_take, Nat.min_l by lia.
  by rewrite <- app_assoc.
Qed.

(** Resolving a block consumes its two brackets, and the expansion of its
    content brings no new one when no value of the map has any. *)
Lemma countByte_rewrite b s m bo bc :
  b = "{"%char \/ b = "}"%char -> valuesFree b m ->
  scan s = (bo, bc) -> hasBlock (bo, bc) = true ->
  (S (countByte b (rewrite s m (bo, bc))) <= countByte b s)%nat.
Proof.
  intros Hb Hm Hscan Hblock.
  destruct (scan_block _ _ _ Hscan Hblock) as ([Hc _] & _ & [Ho _] & _).
  apply hasBlock_iff in Hblock.
  rewrite (split_at2 s bo bc _ _ Hblock Ho Hc) at 2.
  unfold rewrite. rewrite !countByte_app. cbn [countByte].
  rewrite !countByte_app. cbn [countByte].
  pose proof (countByte_expandAll b (slice s (bo + 1) bc) m Hm).
  destruct Hb as [-> | ->]; simpl; lia.
Qed.

Lemma bracketPairs_rewrite s m bo bc :
  valuesFree "{" m -> valuesFree "}" m ->
  scan s = (bo, bc) -> hasBlock (bo, bc) = true ->
  (S (bracketPairs (rewrite s m (bo, bc))) <= bracketPairs s)%nat.
Proof.
  intros Ho Hc Hscan Hblock. unfold bracketPairs.
  pose proof (countByte_rewrite "{" s m bo bc (or_introl eq_refl) Ho Hscan Hblock).
  pose proof (countByte_rewrite "}" s m bo bc (or_intror eq_refl) Hc Hscan Hblock).
  lia.
Qed.

Lemma ReplaceKeywords_enough_fuel m :
  valuesFree "{" m -> valuesFree "}" m ->
  forall n s, (bracketPairs s <= n)%nat ->
  exists r, ReplaceKeywords n s m = Some r.
Proof.
  intros Ho Hc n. induction n as [|n IH]; intros s Hn.
  - destruct (hasBlock (scan s)) eqn:Hb.
    + destruct (scan s) as [bo bc] eqn:Hscan.
      pose proof (bracketPairs_rewrite s m bo bc Ho Hc Hscan Hb). lia.
    + eexists. by apply ReplaceKeywords_flat.
  - destruct (hasBlock (scan s)) eqn:Hb.
    + rewrite ReplaceKeywords_block by done.
      destruct (scan s) as [bo bc] eqn:Hscan. apply IH.
      pose proof (bracketPairs_rewrite s m bo bc Ho Hc Hscan Hb). lia.
    + eexists. by apply ReplaceKeywords_flat.
Qed.

(** ** The order of the keys *)

Lemma prefix_le k1 k2 : HasPrefix k2 k1 = true -> String.le k1 k2.
Proof.
  intros [post ->]%HasPrefix_spec. unfold String.le, String.leb.
  induction k1 as [|c k1 IH]; simpl.
  - by destruct post.
  - unfold Ascii.compare. by rewrite N.compare_refl.
Qed.

Lemma sorted_before (l : list string) k1 k2 :
  StronglySorted String.le l -> k1 ∈ l -> k2 ∈ l -> k1 <> k2 ->
  String.le k1 k2 -> exists l1 l2 l3, l = l1 ++ k1 :: l2 ++ k2 :: l3.
Proof.
  intros Hs H1 H2 Hne Hle.
  apply list_elem_of_split in H1 as (a & b & ->).
  apply elem_of_app in H2 as [H2|H2].
  - exfalso. apply Hne. apply (anti_symm String.le); [done|].
    apply (StronglySorted_app_1_elem_of _ _ _ _ _ Hs); [done|left].
  - apply elem_of_cons in H2 as [->|H2]; [done|].
    apply list_elem_of_split in H2 as (b1 & b2 & ->). by exists a, b1, b2.
Qed.

Lemma sortedKeys_sorted m : StronglySorted String.le (sortedKeys m).
Proof. apply StronglySorted_merge_sort; apply _. Qed.

(** In whatever order [range] yields the keys of the map, [sort.Strings]
    makes the same list of them. *)
Lemma sortedKeys_any_order m (keys : list string) :
  keys ≡ₚ (map_to_list m).*1 -> Sort.Strings keys = sortedKeys m.
Proof.
  intros Hperm. apply (StronglySorted_unique String.le).
  - apply StronglySorted_merge_sort; apply _.
  - apply sortedKeys_sorted.
  - unfold sortedKeys, Sort.Strings. by rewrite !merge_sort_Permutation.
Qed.

(** ** The claims on the template engine *)

(** Case analysis on an index [j] known to lie in [0, fuel). *)
Ltac enum_index j fuel :=
  lazymatch fuel with
  | O => exfalso; lia
  | S ?f =>
    first [ exfalso; lia
          | destruct (Z.eq_dec j (Z.of_nat f)) as [->|?]; [|enum_index j f] ]
  end.

(** C1.  On the pattern [a{#x}b] with ["#x"] mapped to ["Y"] the code does
    not return ["aYb"]: the block is resolved to ["Y"], and the string
    ["aYb"] is then passed to [expandAll], which finds no key in it and
    returns the empty string. *)
Theorem ReplaceKeywords_block_then_collapse (n : nat) :
  rewrite "a{#x}b" (mapX "Y") (scan "a{#x}b") = "aYb" /\
  ReplaceKeywords (S n) "a{#x}b" (mapX "Y") = Some "".
Proof.
  split; [by vm_compute|].
  apply (ReplaceKeywords_mono 1); [by vm_compute|lia].
Qed.

(** C2.  On the pattern [a{#x}b] with ["#x"] mapped to the empty string the
    code does not return ["ab"]: the block is elided, and the string ["ab"]
    is then passed to [expandAll], which finds no key in it and returns the
    empty string. *)
Theorem ReplaceKeywords_elided_then_collapse (n : nat) :
  rewrite "a{#x}b" (mapX "") (scan "a{#x}b") = "ab" /\
  ReplaceKeywords (S n) "a{#x}b" (mapX "") = Some "".
Proof.
  split; [by vm_compute|].
  apply (ReplaceKeywords_mono 1); [by vm_compute|lia].
Qed.









(** C5, as stated, fails: in [{a{b}c}] the first unescaped '{' is at index
    0 and the first unescaped '}' after it at index 4, but the loop leaves
    [bopen = 2]. *)
Lemma scan_first_open_counterexample :
  ~ (forall bopen bclose,
       firstUnescaped "{a{b}c}" "{" 0 bopen ->
       firstUnescaped "{a{b}c}" "}" (bopen + 1) bclose ->
       scan "{a{b}c}" = (bopen, bclose)).
Proof.
  intros H. specialize (H 0 4). discriminate H.
  - split; [lia|]. split; [by split; [|left]|]. intros j Hj. lia.
  - split; [lia|]. split; [split; [done|right; by vm_compute]|].
    intros j Hj [Hat _]. enum_index j 4%nat; by vm_compute in Hat.
Qed.

(** C5, amended.  When the first unescaped '}' of the pattern, at index
    [j], is preceded by an unescaped '{', the block resolved first ends at
    [bclose = j] and starts at the last unescaped '{' before it; the
    recursive call is made on
    [in[:bopen] + expandAll(in[bopen+1:bclose], m) + in[bclose+1:]]. *)
Theorem scan_innermost_block (s : string) (m : gmap string string) (i j : Z) :
  i < j -> unescapedAt s "{" i -> firstUnescaped s "}" 0 j ->
  exists bopen,
    scan s = (bopen, j) /\ i <= bopen < j /\ unescapedAt s "{" bopen /\
    (forall k, bopen < k < j -> ~ unescapedAt s "{" k) /\
    forall n, ReplaceKeywords (S n) s m =
      ReplaceKeywords n
        (slice s 0 bopen +:+ expandAll (slice s (bopen + 1) j) m
           +:+ slice s (j + 1) (len s)) m.
Proof.
  intros Hij Hi (Hj0 & Hj & Hjfirst).
  destruct (scan s) as [bo bc] eqn:Hscan.
  assert (0 <= i) as Hi0 by (destruct Hi as [Hat%at_Some_lt _]; lia).
  pose proof Hscan as Hspec. rewrite scan_bytes in Hspec.
  apply (scanBytes_spec s s _ _ _ _ _ (suffixAt_start s)) in Hspec.
  destruct Hspec as [Hcl Hop].
  assert (bc = j) as ->.
  { destruct Hcl as [[-> Hno]|(Hle & Hc & Hno)].
    - by destruct (Hno j Hj0).
    - destruct (Z.lt_trichotomy bc j) as [?|[?|?]]; [|done|].
      + destruct (Hjfirst bc); [lia|done].
      + destruct (Hno j); [lia|done]. }
  destruct Hop as [[-> Hno]|(Hle & Hbc & Ho & Hno)].
  { destruct (Hno i); [lia|right; lia|done]. }
  assert (bo < j) as Hlt by (destruct Hbc; lia).
  assert (i <= bo) as Hib.
  { destruct (Z.le_gt_cases i bo); [done|]. destruct (Hno i); [lia|right; lia|done]. }
  exists bo. split; [done|]. split; [lia|]. split; [done|]. split.
  - intros k Hk. apply Hno; [lia|right; lia].
  - intros n. rewrite ReplaceKeywords_block; [by rewrite Hscan|].
    rewrite Hscan. apply hasBlock_iff. lia.
Qed.

Lemma scan_innermost_block_witness :
  0 < 4 /\ unescapedAt "{a{b}c}" "{" 0 /\ firstUnescaped "{a{b}c}" "}" 0 4 /\
  exists bopen,
    scan "{a{b}c}" = (bopen, 4) /\ 0 <= bopen < 4 /\
    unescapedAt "{a{b}c}" "{" bopen /\
    (forall k, bopen < k < 4 -> ~ unescapedAt "{a{b}c}" "{" k) /\
    forall n, ReplaceKeywords (S n) "{a{b}c}" (mapX "Y") =
      ReplaceKeywords n
        (slice "{a{b}c}" 0 bopen
           +:+ expandAll (slice "{a{b}c}" (bopen + 1) 4) (mapX "Y")
           +:+ slice "{a{b}c}" (4 + 1) (len "{a{b}c}")) (mapX "Y").
Proof.
  assert (unescapedAt "{a{b}c}" "{" 0) as Ho by (split; [reflexivity|by left]).
  assert (firstUnescaped "{a{b}c}" "}" 0 4) as Hc.
  { split; [lia|]. split; [split; [reflexivity|right; by vm_compute]|].
    intros k Hk [Hat _]. enum_index k 4%nat; by vm_compute in Hat. }
  split; [lia|]. split; [exact Ho|]. split; [exact Hc|].
  apply (scan_innermost_block "{a{b}c}" (mapX "Y") 0 4); [lia|exact Ho|exact Hc].
Defined.

(** C6.  Without a block the pattern is flat-expanded, the keys being
    visited in decreasing order, so that a key comes before every key that
    is a proper prefix of it; and
    [ReplaceKeywords("#authors-#author", ...)] is ["A and B-A"]. *)
Theorem expandAll_longer_key_first :
  (forall n s m, hasBlock (scan s) = false ->
     ReplaceKeywords n s m =
     Some (let '(out, expanded) :=
             foldl (expandStep m) (s, false) (expansionOrder m) in
           if negb expanded then "" else out)) /\
  (forall m, Sorted (flip String.le) (expansionOrder m)) /\
  (forall m k1 k2,
     is_Some (m !! k1) -> is_Some (m !! k2) -> k1 <> k2 ->
     HasPrefix k2 k1 = true ->
     exists l1 l2 l3, expansionOrder m = l1 ++ k2 :: l2 ++ k1 :: l3) /\
  (forall n, ReplaceKeywords n "#authors-#author" authorsMap = Some "A and B-A").
Proof.
  split; [|split; [|split]].
  - intros n s m Hflat. by apply ReplaceKeywords_flat.
  - intros m. apply Sorted_reverse, Sorted_merge_sort. apply _.
  - intros m k1 k2 H1%elem_of_sortedKeys H2%elem_of_sortedKeys Hne Hpre.
    destruct (sorted_before _ k1 k2 (sortedKeys_sorted m) H1 H2 Hne
                (prefix_le _ _ Hpre)) as (l1 & l2 & l3 & Hl).
    exists (reverse l3), (reverse l2), (reverse l1).
    unfold expansionOrder. rewrite Hl.
    rewrite reverse_app, reverse_cons, reverse_app, reverse_cons.
    by rewrite <- !app_assoc.
  - intros n. apply (ReplaceKeywords_mono 0); [by vm_compute|lia].
Qed.

Lemma expandAll_longer_key_first_witness :
  is_Some (authorsMap !! "#author") /\ is_Some (authorsMap !! "#authors") /\
  "#author" <> "#authors" /\ HasPrefix "#authors" "#author" = true /\
  exists l1 l2 l3, expansionOrder authorsMap = l1 ++ "#authors" :: l2 ++ "#author" :: l3.
Proof.
  assert (is_Some (authorsMap !! "#author")) as H1 by (by eexists).
  assert (is_Some (authorsMap !! "#authors")) as H2 by (by eexists).
  assert ("#author" <> "#authors") as H3 by discriminate.
  repeat (split; [assumption || reflexivity|]).
  exact (proj1 (proj2 (proj2 expandAll_longer_key_first))
           authorsMap "#author" "#authors" H1 H2 H3 eq_refl).
Defined.

(** C10.  A pattern without an unescaped pair of brackets in which no key
    of the mapping occurs is expanded to the empty string; so is every such
    pattern under the empty mapping. *)
Theorem ReplaceKeywords_collapses_without_key (s : string) (n : nat) :
  noBlockPair s ->
  (forall m, (forall k, is_Some (m !! k) -> ~ occursIn k s) ->
     ReplaceKeywords n s m = Some "") /\
  ReplaceKeywords n s ∅ = Some "".
Proof.
  intros Hno. apply scan_no_block in Hno.
  assert (forall m, (forall k, is_Some (m !! k) -> ~ occursIn k s) ->
            ReplaceKeywords n s m = Some "") as H.
  { intros m Hm. rewrite ReplaceKeywords_flat by done.
    by rewrite expandAll_absent. }
  split; [exact H|]. apply H. intros k [v Hv]. by rewrite lookup_empty in Hv.
Qed.

Lemma at_countByte s i c : at_ s i = Some c -> countByte c s <> 0%nat.
Proof.
  intros Hat. rewrite (split_at s i c Hat), countByte_app. simpl.
  rewrite Ascii.eqb_refl. lia.
Qed.

Lemma noBlockPair_example : noBlockPair "plain text".
Proof. intros i j _ [Hat%at_countByte _] _. by apply Hat. Defined.

Lemma ReplaceKeywords_collapses_without_key_witness :
  noBlockPair "plain text" /\
  (forall m, (forall k, is_Some (m !! k) -> ~ occursIn k "plain text") ->
     ReplaceKeywords 0 "plain text" m = Some "") /\
  ReplaceKeywords 0 "plain text" ∅ = Some "".
Proof.
  split; [exact noBlockPair_example|].
  exact (ReplaceKeywords_collapses_without_key "plain text" 0 noBlockPair_example).
Defined.

(** * Properties of the EPUB finalizer *)

(** ** What the file operations leave alone *)

Lemma Remove_ok w p w' : Remove w p = (None, w') -> files w' = delete p (files w).
Proof.
  unfold Remove. intros H. repeat case_match; by simplify_eq.
Qed.

Lemma Create_ok w p w' :
  FS.Create w p = (None, w') -> files w' = <[p := File ""]> (files w).
Proof.
  unfold FS.Create. intros H. repeat case_match; by simplify_eq.
Qed.

Lemma mkdirs_keeps rest : forall fs at_ err fs' q n,
  mkdirs fs at_ rest = (err, fs') -> fs !! q = Some n -> fs' !! q = Some n.
Proof.
  induction rest as [|x rest IH]; intros fs at_ err fs' q n H Hq; simpl in H.
  - by simplify_eq.
  - destruct (fs !! (at_ ++ [x])) as [[d|]|] eqn:Hx.
    + by simplify_eq.
    + by eapply IH.
    + eapply IH; [exact H|]. rewrite lookup_insert_ne; [done|].
      congruence.
Qed.



Lemma Base_Join dir name : Base (Join dir name) = name.
Proof. apply last_last. Qed.

(** Once the output file has been prepared and created, every other file
    is as before. *)
Lemma opened_keeps p fname w w1 w2 q d :
  prepareOutput p fname w = (None, w1) -> FS.Create w1 fname = (None, w2) ->
  q <> fname -> files w !! q = Some (File d) -> files w2 !! q = Some (File d).
Proof.
  intros Hprep Hcreate Hne Hq.
  rewrite (Create_ok _ _ _ Hcreate), lookup_insert_ne by done.
  unfold prepareOutput in Hprep. destruct (Stat w fname) as [info|err].
  - destruct (negb (envDebug p) && negb (overwrite p)); [done|].
    rewrite (Remove_ok _ _ _ Hprep), lookup_delete_ne; done.
  - destruct (negb (IsNotExist err)); [done|].
    destruct (MkdirAll w (DirOf fname)) as [[e|] w'] eqn:Hmk; [done|].
    injection Hprep as <-. unfold MkdirAll in Hmk.
    destruct (fault w OpMkdir (DirOf fname)); [done|].
    destruct (mkdirs (files w) [] (DirOf fname)) as [e fs'] eqn:Hm.
    injection Hmk as -> <-. simpl. by eapply mkdirs_keeps.
Qed.


(** ** What [saveFile] and the walk write *)

Lemma write_last z e bytes :
  Zip.write (length z) bytes (z ++ [e]) =
  z ++ [ {| Zip.Header := Zip.Header e; Zip.Data := Zip.Data e +:+ bytes |} ].
Proof.
  unfold Zip.write. rewrite <- (Nat.add_0_r (length z)) at 1.
  exact (alter_app_r _ z [e] 0).
Qed.

Lemma saveFile_content p fname w pth info epub err epub' :
  saveFile p fname w true pth info epub = (err, epub') ->
  exists added, epub' = epub ++ added /\ Forall deflated added.
Proof.
  unfold saveFile, Zip.Create, Zip.CreateHeader, Zip.Copy. intros H.
  repeat case_match; simplify_eq;
    try (by exists []; rewrite app_nil_r);
    try (eexists [_]; split; [reflexivity| by repeat constructor]).
  rewrite write_last. eexists [_]; split; [reflexivity| by repeat constructor].
Qed.

Lemma walkAll_content p fname w todo : forall epub err epub',
  walkAll p fname w todo epub = (err, epub') ->
  exists added, epub' = epub ++ added /\ Forall deflated added.
Proof.
  induction todo as [|pth todo IH]; intros epub err epub' H; simpl in H.
  - simplify_eq. exists []. by rewrite app_nil_r.
  - destruct (visit p fname w pth epub) as [[e|] epub1] eqn:Hv.
    + simplify_eq. unfold visit in Hv.
      repeat case_match; by eapply saveFile_content.
    + assert (exists added, epub1 = epub ++ added /\ Forall deflated added)
        as (a1 & -> & Ha1).
      { unfold visit in Hv. repeat case_match; by eapply saveFile_content. }
      destruct (IH _ _ _ H) as (a2 & -> & Ha2).
      exists (a1 ++ a2). split; [by rewrite app_assoc|by apply Forall_app].
Qed.

Lemma saveFile_anchor p fname w d epub info :
  files w !! Join (tmpDir p) "mimetype" = Some (File d) ->
  Join (tmpDir p) "mimetype" <> fname ->
  Stat w (Join (tmpDir p) "mimetype") = inl info ->
  saveFile p fname w false (Join (tmpDir p) "mimetype") (inl info) [] = (None, epub) ->
  epub = [anchor d].
Proof.
  intros Hmt Hne Hstat Hsave.
  assert (nodeAt w (Join (tmpDir p) "mimetype") = Some (File d)) as Hnode.
  { unfold nodeAt, Join in *. by destruct (tmpDir p). }
  unfold Stat, statWith in Hstat. rewrite Hnode in Hstat.
  destruct (fault w OpStat _); [done|]. injection Hstat as <-.
  unfold saveFile in Hsave. simpl in Hsave.
  rewrite bool_decide_eq_false_2 in Hsave by done.
  unfold Zip.CreateHeader, Open, Zip.Copy, readAll in Hsave.
  rewrite Hnode in Hsave.
  repeat case_match; simplify_eq.
  by rewrite Base_Join.
Qed.

(** ** The claims on the finalizer *)

(** C7, as stated, fails: when [tmp/mimetype] is a directory, [saveFile]
    skips it as not regular, and [FinalizeEPUB] succeeds with an archive
    that starts with a deflated content member. *)
Lemma FinalizeEPUB_anchor_counterexample :
  ~ anchorFirstOnSuccess converter bookPath (stagingWorld (Some Dir)).
Proof.
  intros H.
  destruct (H [ {| Zip.Header := {| Zip.HName := "META-INF/container.xml";
                                    Zip.HMethod := Zip.Deflate |};
                   Zip.Data := "<container/>" |};
                {| Zip.Header := {| Zip.HName := "OEBPS/content.opf";
                                    Zip.HMethod := Zip.Deflate |};
                   Zip.Data := "<package/>" |} ])
    as (d & rest & Heq); [by vm_compute..|].
  discriminate Heq.
Qed.

(** C7, amended.  Whenever [FinalizeEPUB] succeeds on a staging directory
    whose [mimetype] is a regular file other than the output file, the
    archive starts with the anchor member: stored, named [mimetype] without
    any directory, with the bytes of that file; all other members come after
    it, deflated. *)
Theorem FinalizeEPUB_anchor_first (p : Processor) (fname : path) (w w' : World)
    (d : string) (epub : Zip.Writer) :
  files w !! Join (tmpDir p) "mimetype" = Some (File d) ->
  Join (tmpDir p) "mimetype" <> fname ->
  FinalizeEPUB p fname w = (None, w', Some epub) ->
  exists rest, epub = anchor d :: rest /\ Forall deflated rest.
Proof.
  intros Hmt Hne Hrun. unfold FinalizeEPUB in Hrun.
  destruct (prepareOutput p fname w) as [[e|] w1] eqn:Hprep; [done|].
  destruct (FS.Create w1 fname) as [[e|] w2] eqn:Hcreate; [done|].
  pose proof (opened_keeps _ _ _ _ _ _ _ Hprep Hcreate Hne Hmt) as Hmt2.
  destruct (Stat w2 (Join (tmpDir p) "mimetype")) as [info|e] eqn:Hstat; [|done].
  destruct (saveFile p fname w2 false _ (inl info) []) as [[e|] epub0] eqn:Hsave;
    [done|].
  rewrite (saveFile_anchor _ _ _ _ _ _ Hmt2 Hne Hstat Hsave) in Hrun.
  destruct (Walk p fname w2 [anchor d]) as [[e|] epub1] eqn:Hwalk; [done|].
  injection Hrun as _ <-.
  destruct (walkAll_content _ _ _ _ _ _ _ Hwalk) as (rest & -> & Hrest).
  by exists rest.
Qed.

Lemma FinalizeEPUB_anchor_first_witness :
  let w := stagingWorld (Some (File "application/epub+zip")) in
  let w' := (FinalizeEPUB converter bookPath w).1.2 in
  let epub :=
    [ anchor "application/epub+zip";
      {| Zip.Header := {| Zip.HName := "META-INF/container.xml";
                          Zip.HMethod := Zip.Deflate |};
         Zip.Data := "<container/>" |};
      {| Zip.Header := {| Zip.HName := "OEBPS/content.opf";
                          Zip.HMethod := Zip.Deflate |};
         Zip.Data := "<package/>" |} ] in
  files w !! Join (tmpDir converter) "mimetype" = Some (File "application/epub+zip") /\
  Join (tmpDir converter) "mimetype" <> bookPath /\
  FinalizeEPUB converter bookPath w = (None, w', Some epub) /\
  exists rest, epub = anchor "application/epub+zip" :: rest /\ Forall deflated rest.
Proof.
  intros w w' epub.
  assert (files w !! Join (tmpDir converter) "mimetype"
          = Some (File "application/epub+zip")) as H1 by reflexivity.
  assert (Join (tmpDir converter) "mimetype" <> bookPath) as H2 by discriminate.
  assert (FinalizeEPUB converter bookPath w = (None, w', Some epub)) as H3
    by (vm_compute; reflexivity).
  split; [exact H1|]. split; [exact H2|]. split; [exact H3|].
  exact (FinalizeEPUB_anchor_first converter bookPath w w' _ epub H1 H2 H3).
Defined.

(** C8.  When the output path exists ([os.Stat] succeeds on it) and neither
    [overwrite] nor the debug mode is set, [FinalizeEPUB] returns the error
    "output file already exists", opens no archive and leaves the file
    system as it was; so a second run does the same. *)
Theorem FinalizeEPUB_existing_output (p : Processor) (fname : path) (w : World)
    (info : FileInfo) :
  Stat w fname = inl info -> envDebug p = false -> overwrite p = false ->
  FinalizeEPUB p fname w
    = (Some (Errorf "output file already exists: %s" fname), w, None) /\
  FinalizeEPUB p fname (FinalizeEPUB p fname w).1.2
    = (Some (Errorf "output file already exists: %s" fname), w, None).
Proof.
  intros Hstat Hdebug Hover.
  assert (FinalizeEPUB p fname w
          = (Some (Errorf "output file already exists: %s" fname), w, None)) as H.
  { unfold FinalizeEPUB, prepareOutput. by rewrite Hstat, Hdebug, Hover. }
  split; [exact H|]. rewrite H. exact H.
Qed.

Lemma FinalizeEPUB_existing_output_witness :
  Stat existingWorld bookPath = inl {| Name := "book.epub"; IsDir := false |} /\
  envDebug converter = false /\ overwrite converter = false /\
  FinalizeEPUB converter bookPath existingWorld
    = (Some (Errorf "output file already exists: %s" bookPath), existingWorld, None) /\
  FinalizeEPUB converter bookPath (FinalizeEPUB converter bookPath existingWorld).1.2
    = (Some (Errorf "output file already exists: %s" bookPath), existingWorld, None).
Proof.
  assert (Stat existingWorld bookPath = inl {| Name := "book.epub"; IsDir := false |})
    as H1 by reflexivity.
  split; [exact H1|]. split; [reflexivity|]. split; [reflexivity|].
  exact (FinalizeEPUB_existing_output converter bookPath existingWorld _
           H1 eq_refl eq_refl).
Defined.




(** * Further properties *)

(** ** The template engine *)

Lemma foldl_expandStep_empty_values m l s :
  map_Forall (fun _ v => v = "") m ->
  (foldl (expandStep m) (s, false) l).2 = false.
Proof.
  intros Hm. revert s. induction l as [|k l IH]; intros s; [done|].
  cbn [foldl]. unfold expandStep at 2, expandKeyword.
  assert (default "" (m !! k) = "") as ->.
  { destruct (m !! k) as [v|] eqn:Hk; [|done]. by apply (Hm k). }
  destruct (negb _); apply IH.
Qed.

Lemma expandAll_empty_values m s :
  map_Forall (fun _ v => v = "") m -> expandAll s m = "".
Proof.
  intros Hm. unfold expandAll.
  pose proof (foldl_expandStep_empty_values m (expansionOrder m) s Hm) as H.
  destruct (foldl _ _ _) as [out e]. simpl in H. by rewrite H.
Qed.

(** Whatever [ReplaceKeywords] returns comes out of [expandAll]. *)
Lemma ReplaceKeywords_result n : forall s m r,
  ReplaceKeywords n s m = Some r -> exists s', r = expandAll s' m.
Proof.
  induction n as [|n IH]; intros s m r H;
    destruct (hasBlock (scan s)) eqn:Hb.
  - by rewrite ReplaceKeywords_block_0 in H.
  - rewrite ReplaceKeywords_flat in H by done. injection H as <-. by eexists.
  - rewrite ReplaceKeywords_block in H by done. by eapply IH.
  - rewrite ReplaceKeywords_flat in H by done. injection H as <-. by eexists.
Qed.

(** X1.  When every value of the mapping is the empty string, the result is
    the empty string, whatever the pattern. *)
Theorem ReplaceKeywords_empty_values (s : string) (m : gmap string string) :
  map_Forall (fun _ v => v = "") m ->
  ReplaceKeywords (bracketPairs s) s m = Some "".
Proof.
  intros Hm.
  assert (forall b, valuesFree b m) as Hfree.
  { intros b k v Hk. by rewrite (Hm k v Hk). }
  destruct (ReplaceKeywords_enough_fuel m (Hfree _) (Hfree _) (bracketPairs s) s)
    as [r Hr]; [done|].
  destruct (ReplaceKeywords_result _ _ _ _ Hr) as [s' ->].
  by rewrite Hr, expandAll_empty_values.
Qed.

Lemma ReplaceKeywords_empty_values_witness :
  map_Forall (fun _ v => v = "") (mapX "") /\
  ReplaceKeywords (bracketPairs "#x{ (#x)}!") "#x{ (#x)}!" (mapX "") = Some "".
Proof.
  assert (map_Forall (fun _ v : string => v = "") (mapX "")) as H
    by (by apply map_Forall_singleton).
  split; [exact H|]. exact (ReplaceKeywords_empty_values "#x{ (#x)}!" (mapX "") H).
Defined.

(** X2.  A '}' in front switches the blocks off: when no unescaped '{'
    comes before the first unescaped '}' (or there is no unescaped '}' at
    all), the whole pattern is flat-expanded, with its brackets and with the
    blocks that follow. *)
Theorem ReplaceKeywords_stray_close (s : string) (m : gmap string string) (n : nat) :
  (forall i j, unescapedAt s "{" i -> firstUnescaped s "}" 0 j -> j < i) ->
  ReplaceKeywords n s m = Some (expandAll s m).
Proof.
  intros H. apply ReplaceKeywords_flat.
  destruct (scan s) as [bo bc] eqn:Hscan.
  destruct (hasBlock (bo, bc)) eqn:Hb; [exfalso|done].
  destruct (scan_block _ _ _ Hscan Hb) as (Hc & Hfirst & Ho & _).
  apply hasBlock_iff in Hb.
  assert (bc < bo); [|lia].
  apply H; [done|]. split; [lia|]. split; [done|].
  intros j Hj. apply Hfirst. lia.
Qed.

Lemma ReplaceKeywords_stray_close_witness :
  (forall i j, unescapedAt "}{#x}" "{" i -> firstUnescaped "}{#x}" "}" 0 j -> j < i) /\
  ReplaceKeywords 0 "}{#x}" (mapX "Y") = Some (expandAll "}{#x}" (mapX "Y")) /\
  expandAll "}{#x}" (mapX "Y") = "}{Y}".
Proof.
  assert (forall i j, unescapedAt "}{#x}" "{" i ->
            firstUnescaped "}{#x}" "}" 0 j -> j < i) as H.
  { intros i j [Hi _] (Hj0 & _ & Hfirst).
    pose proof (at_Some_lt _ _ _ Hi) as Hil. change (len "}{#x}") with 5 in Hil.
    destruct (Z.le_gt_cases j 0) as [Hle|Hgt].
    - enum_index i 5%nat; first [lia | by vm_compute in Hi].
    - destruct (Hfirst 0); [lia|]. split; [reflexivity|by left]. }
  split; [exact H|]. split; [|by vm_compute].
  exact (ReplaceKeywords_stray_close "}{#x}" (mapX "Y") 0 H).
Defined.

(** ** The EPUB finalizer *)





Lemma prepareOutput_keeps p fname w err w1 q n :
  prepareOutput p fname w = (err, w1) -> q <> fname ->
  files w !! q = Some n -> files w1 !! q = Some n.
Proof.
  intros Hprep Hne Hq. unfold prepareOutput in Hprep.
  destruct (Stat w fname) as [info|e].
  - destruct (negb (envDebug p) && negb (overwrite p)); [by simplify_eq|].
    unfold Remove in Hprep. repeat case_match; simplify_eq; try done;
      simpl; by rewrite lookup_delete_ne.
  - destruct (negb (IsNotExist e)); [by simplify_eq|].
    unfold MkdirAll in Hprep.
    destruct (fault w OpMkdir (DirOf fname)); [by simplify_eq|].
    destruct (mkdirs (files w) [] (DirOf fname)) as [e' fs'] eqn:Hm.
    assert (files w1 = fs') as -> by (destruct e'; by simplify_eq).
    by eapply mkdirs_keeps.
Qed.

Lemma Create_keeps w fname err w2 q n :
  FS.Create w fname = (err, w2) -> q <> fname ->
  files w !! q = Some n -> files w2 !! q = Some n.
Proof.
  intros Hc Hne Hq. unfold FS.Create in Hc.
  repeat case_match; simplify_eq; try done; simpl; by rewrite lookup_insert_ne.
Qed.

(** The file system [FinalizeEPUB] leaves is the one left by the output
    file being prepared and created. *)
Lemma FinalizeEPUB_world p fname w err w' a :
  FinalizeEPUB p fname w = (err, w', a) ->
  exists e1 w1 e2,
    prepareOutput p fname w = (e1, w1) /\
    ((e1 <> None /\ w' = w1 /\ a = None) \/
     (e1 = None /\ FS.Create w1 fname = (e2, w') /\ (e2 = None <-> a <> None))).
Proof.
  unfold FinalizeEPUB. intros H.
  destruct (prepareOutput p fname w) as [[e|] w1] eqn:Hprep.
  { simplify_eq. exists (Some e), w', None. split; [done|]. by left. }
  destruct (FS.Create w1 fname) as [[e|] w2] eqn:Hcreate.
  { simplify_eq. exists None, w1, (Some e). split; [done|]. right.
    split; [done|]. split; [done|]. split; intros; done. }
  exists None, w1, None. split; [done|]. right. split; [done|].
  repeat case_match; simplify_eq; (split; [done|]; split; intros; done).
Qed.

(** X4.  Whatever the outcome, [FinalizeEPUB] leaves every file and
    directory other than the output path as it was: nothing in the staging
    tree is changed or removed. *)
Theorem FinalizeEPUB_keeps_others (p : Processor) (fname : path) (w w' : World)
    (err : option error) (a : option Zip.Writer) (q : path) (n : node) :
  FinalizeEPUB p fname w = (err, w', a) -> q <> fname ->
  files w !! q = Some n -> files w' !! q = Some n.
Proof.
  intros Hrun Hne Hq.
  destruct (FinalizeEPUB_world _ _ _ _ _ _ Hrun)
    as (e1 & w1 & e2 & Hprep & [(_ & -> & _)|(_ & Hcreate & _)]).
  - by eapply prepareOutput_keeps.
  - eapply Create_keeps; [exact Hcreate|done|]. by eapply prepareOutput_keeps.
Qed.

Lemma FinalizeEPUB_keeps_others_witness :
  let w := stagingWorld None in
  let r := FinalizeEPUB converter bookPath w in
  FinalizeEPUB converter bookPath w = (r.1.1, r.1.2, r.2) /\
  ["tmp"; "OEBPS"; "content.opf"] <> bookPath /\
  files w !! ["tmp"; "OEBPS"; "content.opf"] = Some (File "<package/>") /\
  files r.1.2 !! ["tmp"; "OEBPS"; "content.opf"] = Some (File "<package/>").
Proof.
  intros w r.
  assert (FinalizeEPUB converter bookPath w = (r.1.1, r.1.2, r.2)) as H1
    by (by destruct (FinalizeEPUB converter bookPath w) as [[? ?] ?]).
  assert (["tmp"; "OEBPS"; "content.opf"] <> bookPath) as H2 by discriminate.
  assert (files w !! ["tmp"; "OEBPS"; "content.opf"] = Some (File "<package/>"))
    as H3 by reflexivity.
  split; [exact H1|]. split; [exact H2|]. split; [exact H3|].
  exact (FinalizeEPUB_keeps_others converter bookPath w _ _ _ _ _ H1 H2 H3).
Defined.

(** X5.  No rollback: once the archive has been opened, the output path
    holds a regular file when [FinalizeEPUB] returns, also when it returns an
    error. *)
Theorem FinalizeEPUB_no_rollback (p : Processor) (fname : path) (w w' : World)
    (err : option error) (epub : Zip.Writer) :
  FinalizeEPUB p fname w = (err, w', Some epub) ->
  exists d, nodeAt w' fname = Some (File d).
Proof.
  intros Hrun.
  destruct (FinalizeEPUB_world _ _ _ _ _ _ Hrun)
    as (e1 & w1 & e2 & Hprep & [(_ & _ & ?)|(_ & Hcreate & He2)]); [done|].
  assert (e2 = None) as -> by (by apply He2).
  unfold FS.Create in Hcreate.
  repeat case_match; simplify_eq; exists ""; simpl; by rewrite lookup_insert_eq.
Qed.

Lemma FinalizeEPUB_no_rollback_witness :
  let r := FinalizeEPUB converter bookPath (stagingWorld None) in
  FinalizeEPUB converter bookPath (stagingWorld None) = (r.1.1, r.1.2, Some []) /\
  r.1.1 <> None /\
  exists d, nodeAt r.1.2 bookPath = Some (File d).
Proof.
  intros r.
  assert (FinalizeEPUB converter bookPath (stagingWorld None)
          = (r.1.1, r.1.2, Some [])) as H1 by (vm_compute; reflexivity).
  split; [exact H1|]. split; [by vm_compute|].
  exact (FinalizeEPUB_no_rollback converter bookPath (stagingWorld None) _ _ _ H1).
Defined.

Lemma FinalizeEPUB_opened p fname w w1 w2 :
  prepareOutput p fname w = (None, w1) -> FS.Create w1 fname = (None, w2) ->
  FinalizeEPUB p fname w = writeArchive p fname w2.
Proof. intros H1 H2. unfold FinalizeEPUB. by rewrite H1, H2. Qed.

Lemma prepareOutput_fault p fname w err w1 :
  prepareOutput p fname w = (err, w1) -> fault w1 = fault w.
Proof.
  unfold prepareOutput, Remove, MkdirAll. intros H.
  repeat case_match; by simplify_eq.
Qed.

Lemma Create_succeeds w fname w2 :
  FS.Create w fname = (None, w2) ->
  fault w OpCreate fname = None /\ fname <> [] /\
  nodeAt w (DirOf fname) = Some Dir /\
  w2 = withFiles w (<[fname := File ""]> (files w)).
Proof.
  unfold FS.Create. intros H. repeat case_match; by simplify_eq.
Qed.

Lemma Create_creates w fname :
  fault w OpCreate fname = None -> fname <> [] ->
  nodeAt w (DirOf fname) = Some Dir -> nodeAt w fname <> Some Dir ->
  FS.Create w fname = (None, withFiles w (<[fname := File ""]> (files w))).
Proof.
  unfold FS.Create. intros Hf Hne Hd Hn. rewrite Hf.
  destruct fname as [|x l]; [done|]. rewrite Hd.
  by destruct (nodeAt w (x :: l)) as [[|]|].
Qed.

Lemma DirOf_ne (fname : path) : fname <> [] -> DirOf fname <> fname.
Proof.
  intros Hne Heq. apply (f_equal length) in Heq. unfold DirOf in Heq.
  rewrite (app_removelast_last "" Hne) in Heq at 2.
  rewrite length_app in Heq. simpl in Heq. lia.
Qed.

(** X6.  With [overwrite] (or the debug mode) set, a successful run can be
    repeated: run again on the file system it left, [FinalizeEPUB] succeeds
    again, leaves the same file system and writes the same archive. *)
Theorem FinalizeEPUB_rerun (p : Processor) (fname : path) (w w' : World)
    (epub : Zip.Writer) :
  FinalizeEPUB p fname w = (None, w', Some epub) ->
  overwrite p || envDebug p = true ->
  fault w OpStat fname = None -> fault w OpRemove fname = None ->
  FinalizeEPUB p fname w' = (None, w', Some epub).
Proof.
  intros Hrun Hflag Hstat Hrem.
  destruct (FinalizeEPUB_world _ _ _ _ _ _ Hrun)
    as (e1 & w1 & e2 & Hprep & [(_ & _ & ?)|(-> & Hcreate & He2)]); [done|].
  assert (e2 = None) as -> by (by apply He2).
  rewrite (FinalizeEPUB_opened _ _ _ _ _ Hprep Hcreate) in Hrun.
  pose proof (prepareOutput_fault _ _ _ _ _ Hprep) as Hf1.
  destruct (Create_succeeds _ _ _ Hcreate) as (Hfc & Hne & Hdir & Hw').
  assert (fault w' = fault w) as Hf by (by rewrite Hw').
  assert (files w' !! fname = Some (File "")) as Hfile
    by (rewrite Hw'; simpl; apply lookup_insert_eq).
  assert (nodeAt w' fname = Some (File "")) as Hnode
    by (unfold nodeAt; by destruct fname).
  set (w1' := withFiles w' (delete fname (files w'))).
  assert (prepareOutput p fname w' = (None, w1')) as Hprep'.
  { unfold prepareOutput, Stat, statWith. rewrite Hf, Hstat, Hnode.
    assert (negb (envDebug p) && negb (overwrite p) = false) as ->
      by (destruct (envDebug p), (overwrite p); done).
    unfold Remove. rewrite Hf, Hrem. subst w1'.
    destruct fname as [|x l]; [done|]. by rewrite Hfile. }
  assert (FS.Create w1' fname = (None, w')) as Hcreate'.
  { rewrite (Create_creates w1' fname).
    - f_equal. subst w1'. unfold withFiles. simpl.
      rewrite insert_delete_eq, insert_id by done. by destruct w'.
    - subst w1'. simpl. by rewrite Hf, <- Hf1.
    - done.
    - subst w1'. unfold nodeAt in *.
      destruct (DirOf fname) as [|x l] eqn:Hd; [done|]. simpl.
      rewrite lookup_delete_ne by (rewrite <- Hd; by apply not_eq_sym, DirOf_ne).
      rewrite Hw'. simpl.
      rewrite lookup_insert_ne by (rewrite <- Hd; by apply not_eq_sym, DirOf_ne).
      done.
    - subst w1'. unfold nodeAt. destruct fname; [done|]. simpl.
      by rewrite lookup_delete_eq. }
  by rewrite (FinalizeEPUB_opened _ _ _ _ _ Hprep' Hcreate').
Qed.

Lemma FinalizeEPUB_rerun_witness :
  let p := {| tmpDir := ["tmp"]; overwrite := true; envDebug := false |} in
  let w := stagingWorld (Some (File "application/epub+zip")) in
  let w' := (FinalizeEPUB p bookPath w).1.2 in
  let epub := default [] (FinalizeEPUB p bookPath w).2 in
  FinalizeEPUB p bookPath w = (None, w', Some epub) /\
  overwrite p || envDebug p = true /\
  fault w OpStat bookPath = None /\ fault w OpRemove bookPath = None /\
  FinalizeEPUB p bookPath w' = (None, w', Some epub).
Proof.
  intros p w w' epub.
  assert (FinalizeEPUB p bookPath w = (None, w', Some epub)) as H1
    by (vm_compute; reflexivity).
  split; [exact H1|]. split; [reflexivity|]. split; [reflexivity|].
  split; [reflexivity|].
  exact (FinalizeEPUB_rerun p bookPath w w' epub H1 eq_refl eq_refl eq_refl).
Defined.

(** ** The helpers of textutils.go *)

Import StringsExt Helpers.

(** X7.  A header level that is between 0 and [math.MaxInt32] stays there
    under [Inc] and [Dec]; [Dec] does nothing at 0 only, [Inc] nothing at
    [math.MaxInt32] only, and apart from that each undoes the other. *)
Theorem htmlHeader_bounds (hl : Z) :
  0 <= hl <= MaxInt32 ->
  0 <= Inc hl <= MaxInt32 /\ 0 <= Dec hl <= MaxInt32 /\
  (Dec hl = hl <-> hl = 0) /\ (Inc hl = hl <-> hl = MaxInt32) /\
  (hl < MaxInt32 -> Dec (Inc hl) = hl) /\ (0 < hl -> Inc (Dec hl) = hl).
Proof.
  unfold Inc, Dec, MaxInt32. intros H.
  repeat split; intros; repeat case_match; lia.
Qed.

Lemma htmlHeader_bounds_witness :
  0 <= 3 <= MaxInt32 /\
  0 <= Inc 3 <= MaxInt32 /\ 0 <= Dec 3 <= MaxInt32 /\
  (Dec 3 = 3 <-> 3 = 0) /\ (Inc 3 = 3 <-> 3 = MaxInt32) /\
  (3 < MaxInt32 -> Dec (Inc 3) = 3) /\ (0 < 3 -> Inc (Dec 3) = 3).
Proof.
  assert (0 <= 3 <= MaxInt32) as H by (unfold MaxInt32; lia).
  split; [exact H|]. exact (htmlHeader_bounds 3 H).
Defined.

(** X8.  For a level that is not negative, [String] gives the prefix and
    one digit, from 0 to 6: every level above 6 is named as level 6. *)
Theorem htmlHeader_String_digit (hl : Z) (prefix : string) :
  0 <= hl ->
  htmlHeader_String hl prefix
  = prefix +:+ String (ascii_of_N (48 + Z.to_N (Z.min hl 6))) "".
Proof.
  intros H. unfold htmlHeader_String, FormatInt.
  destruct (Z.ltb_spec 6 hl) as [Hgt|Hle].
  - by rewrite Z.min_r by lia.
  - rewrite Z.min_l by lia. enum_index hl 7%nat; reflexivity.
Qed.

Lemma htmlHeader_String_digit_witness :
  0 <= 9 /\ htmlHeader_String 9 "h" = "h" +:+ String (ascii_of_N (48 + Z.to_N (Z.min 9 6))) "" /\
  htmlHeader_String 9 "h" = "h6".
Proof.
  split; [lia|]. split; [|reflexivity].
  apply (htmlHeader_String_digit 9 "h"). lia.
Defined.

Lemma HasPrefix_byte c s b :
  HasPrefix (String c s) (String b "") = Ascii.eqb b c.
Proof.
  unfold HasPrefix. simpl. destruct (ascii_dec b c) as [->|Hne].
  - rewrite Ascii.eqb_refl. by destruct s.
  - symmetry. by apply Ascii.eqb_neq.
Qed.

Lemma splitFrom_byte_cons c s b :
  splitFrom 0 (String c s) (String b "") =
  if Ascii.eqb b c
  then ("", (splitFrom 0 s (String b "")).1 :: (splitFrom 0 s (String b "")).2)
  else (String c (splitFrom 0 s (String b "")).1, (splitFrom 0 s (String b "")).2).
Proof.
  cbn [splitFrom]. rewrite HasPrefix_byte. simpl.
  by destruct (splitFrom 0 s (String b "")).
Qed.

Lemma Split_byte s b :
  Split s (String b "") =
  (splitFrom 0 s (String b "")).1 :: (splitFrom 0 s (String b "")).2.
Proof. unfold Split. by destruct (splitFrom 0 s (String b "")). Qed.

Lemma first_piece s b :
  exists rest,
    s = (splitFrom 0 s (String b "")).1 +:+ rest /\
    countByte b (splitFrom 0 s (String b "")).1 = 0%nat /\
    (rest = "" \/ exists r, rest = String b r).
Proof.
  induction s as [|c s (rest & Hs & Hcount & Hrest)].
  - exists "". split; [done|]. split; [done|]. by left.
  - rewrite splitFrom_byte_cons. destruct (Ascii.eqb_spec b c) as [->|Hne].
    + exists (String c s). split; [done|]. split; [done|]. right. by eexists.
    + exists rest. simpl. split; [by rewrite app_cons_str, <- Hs|].
      split; [|done]. rewrite Hcount.
      assert (Ascii.eqb c b = false) as -> by (apply Ascii.eqb_neq; congruence).
      done.
Qed.

(** X9.  [FirstLine] never panics; what it returns is the text before the
    first newline: a prefix of the input without any newline, after which
    the input ends or goes on with a newline. *)
Theorem FirstLine_prefix (s : string) :
  exists line rest,
    FirstLine s = Some line /\ s = line +:+ rest /\
    countByte LF line = 0%nat /\ (rest = "" \/ exists r, rest = String LF r).
Proof.
  destruct (first_piece s LF) as (rest & Hs & Hcount & Hrest).
  exists (splitFrom 0 s (String LF "")).1, rest.
  split; [|done]. unfold FirstLine. by rewrite Split_byte.
Qed.

Lemma Join_cons_char c piece pieces sep :
  Join (String c piece :: pieces) sep = String c (Join (piece :: pieces) sep).
Proof. by destruct pieces. Qed.

Lemma Join_split_byte s b d :
  Join (Split s (String b "")) (String d "")
  = mapBytes (fun c => if Ascii.eqb c b then d else c) s.
Proof.
  rewrite Split_byte. induction s as [|c s IH]; [done|].
  rewrite splitFrom_byte_cons. simpl mapBytes. rewrite <- IH.
  rewrite (Ascii.eqb_sym c b). destruct (Ascii.eqb b c); simpl.
  - done.
  - apply Join_cons_char.
Qed.

Lemma length_mapBytes f s : String.length (mapBytes f s) = String.length s.
Proof. induction s as [|c s IH]; simpl; [done|]. by rewrite IH. Qed.

(** X10.  [AllLines] puts a space for every newline and changes nothing
    else: the result has the length of the input and no newline. *)
Theorem AllLines_spaces (s : string) :
  AllLines s = mapBytes spaceForNewline s /\
  String.length (AllLines s) = String.length s /\
  countByte LF (AllLines s) = 0%nat.
Proof.
  assert (AllLines s = mapBytes spaceForNewline s) as H.
  { unfold AllLines. apply Join_split_byte. }
  split; [exact H|]. rewrite H. split; [apply length_mapBytes|].
  clear H. induction s as [|c s IH]; [done|]. simpl. rewrite IH.
  unfold spaceForNewline. destruct (Ascii.eqb_spec c LF) as [->|Hne].
  - reflexivity.
  - by rewrite (proj2 (Ascii.eqb_neq c LF) Hne).
Qed.

Lemma replacement_nameCleaner c :
  replacement nameCleaner c =
  if Ascii.eqb c CR || Ascii.eqb c LF || Ascii.eqb c SP then Some "" else None.
Proof.
  unfold nameCleaner. cbn [replacement].
  rewrite (Ascii.eqb_sym CR), (Ascii.eqb_sym LF), (Ascii.eqb_sym SP).
  by destruct (Ascii.eqb c CR), (Ascii.eqb c LF), (Ascii.eqb c SP).
Qed.

Lemma cleaned_unchanged s :
  (countByte CR s + countByte LF s + countByte SP s = 0)%nat ->
  ReplacerReplace nameCleaner s = s.
Proof.
  induction s as [|c s IH]; [done|].
  cbn [ReplacerReplace countByte]. rewrite replacement_nameCleaner.
  destruct (Ascii.eqb c CR), (Ascii.eqb c LF), (Ascii.eqb c SP);
    cbn [orb]; intros H; try lia.
  by rewrite IH by lia.
Qed.

Lemma cleaned_count s :
  (countByte CR (ReplacerReplace nameCleaner s)
   + countByte LF (ReplacerReplace nameCleaner s)
   + countByte SP (ReplacerReplace nameCleaner s) = 0)%nat /\
  (String.length (ReplacerReplace nameCleaner s) <= String.length s)%nat.
Proof.
  induction s as [|c s [IH1 IH2]]; [done|].
  cbn [ReplacerReplace]. rewrite replacement_nameCleaner.
  destruct (Ascii.eqb c CR) eqn:H1, (Ascii.eqb c LF) eqn:H2,
    (Ascii.eqb c SP) eqn:H3; cbn [orb];
    try change ("" +:+ ReplacerReplace nameCleaner s)
      with (ReplacerReplace nameCleaner s);
    try (split; [exact IH1|]; cbn [String.length]; lia).
  cbn [countByte String.length]. rewrite H1, H2, H3. lia.
Qed.

(** X11.  The name [SanitizeName] returns has no '\r', no '\n' and no
    space and is not longer than the input; it is reported as changed
    exactly when the input has one of these bytes; cleaned once more, it is
    not changed. *)
Theorem SanitizeName_clean (s : string) :
  let out := (SanitizeName s).1 in
  countByte CR out = 0%nat /\ countByte LF out = 0%nat /\ countByte SP out = 0%nat /\
  (String.length out <= String.length s)%nat /\
  ((SanitizeName s).2 = false <->
   (countByte CR s + countByte LF s + countByte SP s = 0)%nat) /\
  SanitizeName out = (out, false).
Proof.
  unfold SanitizeName. simpl.
  destruct (cleaned_count s) as [Hc Hl].
  split; [lia|]. split; [lia|]. split; [lia|]. split; [exact Hl|]. split.
  - rewrite negb_false_iff, String.eqb_eq. split.
    + intros Heq. by rewrite Heq in Hc.
    + apply cleaned_unchanged.
  - rewrite (cleaned_unchanged _ Hc). by rewrite String.eqb_refl.
Qed.

Lemma found_spec (l : list string) x : found l x = true <-> x ∈ l.
Proof.
  induction l as [|y l IH]; simpl.
  - split; [done|]. by intros ?%elem_of_nil.
  - rewrite elem_of_cons. destruct (String.eqb_spec y x) as [->|Hne].
    + split; [by left|done].
    + rewrite IH. split; [by right|]. intros [?|?]; [congruence|done].
Qed.

(** X12.  After [AppendIfMissing] the string is in the slice; the slice it
    is given is kept, as the beginning of the result; a slice without
    duplicates stays so; and a second call with the same string adds
    nothing. *)
Theorem AppendIfMissing_set (slice : list string) (str : string) :
  str ∈ AppendIfMissing slice str /\
  slice `prefix_of` AppendIfMissing slice str /\
  (NoDup slice -> NoDup (AppendIfMissing slice str)) /\
  AppendIfMissing (AppendIfMissing slice str) str = AppendIfMissing slice str.
Proof.
  unfold AppendIfMissing at 1 2 3 5.
  destruct (found slice str) eqn:Hf.
  - pose proof (proj1 (found_spec _ _) Hf) as Hin.
    split; [done|]. split; [done|]. split; [done|].
    unfold AppendIfMissing. by rewrite Hf.
  - assert (str ∉ slice) as Hnin.
    { intros Hin%found_spec. congruence. }
    split; [apply elem_of_app; right; by left|].
    split; [by apply prefix_app_r|]. split.
    + intros Hnd. apply NoDup_app. split; [done|]. split.
      * intros x Hx [->|[]%elem_of_nil]%elem_of_cons. done.
      * apply NoDup_singleton.
    + unfold AppendIfMissing. rewrite Hf.
      assert (found (slice ++ [str]) str = true) as ->; [|done].
      apply found_spec, elem_of_app. right. by left.
Qed.

Lemma AppendIfMissing_set_witness :
  NoDup ["a"; "b"] /\ NoDup (AppendIfMissing ["a"; "b"] "c") /\
  AppendIfMissing ["a"; "b"] "c" = ["a"; "b"; "c"].
Proof.
  assert (NoDup ["a"; "b"]) as H by (by apply (bool_decide_unpack _)).
  split; [exact H|]. split; [|reflexivity].
  exact (proj1 (proj2 (proj2 (AppendIfMissing_set ["a"; "b"] "c"))) H).
Defined.

(** ** The generated [String] methods *)

Import Enums.

Lemma app_inj_r_str s1 s2 t : s1 +:+ t = s2 +:+ t -> s1 = s2.
Proof.
  intros H. apply bytes_inj. apply (f_equal bytes) in H.
  rewrite !bytes_app in H. by apply app_inv_tail in H.
Qed.

Lemma stringerString_outside tn name index i :
  (i <? 0) || (Z.of_nat (length index) - 1 <=? i) = true ->
  stringerString tn name index i = Some (tn +:+ "(" +:+ FormatInt i +:+ ")").
Proof. intros H. unfold stringerString. by rewrite H. Qed.

Lemma stringerString_outside_inj tn name index i j :
  (i <? 0) || (Z.of_nat (length index) - 1 <=? i) = true ->
  (j <? 0) || (Z.of_nat (length index) - 1 <=? j) = true ->
  stringerString tn name index i = stringerString tn name index j -> i = j.
Proof.
  intros Hi Hj. rewrite !stringerString_outside by done. intros [= H].
  apply String.app_inj, String.app_inj, app_inj_r_str in H.
  by apply (inj pretty) in H.
Qed.

(** The cases of a [String] method: outside of the table, or one of the
    [n] rows. *)
Ltac stringer_cases i n index Hi :=
  destruct ((i <? 0) || (Z.of_nat (length index) - 1 <=? i)) eqn:Hi;
  [|apply orb_false_elim in Hi as [?%Z.ltb_ge ?%Z.leb_gt];
    simpl in *; enum_index i n].

Ltac stringer_total n index :=
  let i := fresh "i" in let Hi := fresh "Hi" in
  intros i; stringer_cases i n index Hi;
  [rewrite stringerString_outside by exact Hi; by eexists
  |by eexists..].

Ltac stringer_inj n index :=
  let i := fresh "i" in let j := fresh "j" in
  let Hi := fresh "Hi" in let Hj := fresh "Hj" in let H := fresh "H" in
  intros i j H;
  stringer_cases i n index Hi; stringer_cases j n index Hj;
  first [ exact (stringerString_outside_inj _ _ _ _ _ Hi Hj H)
        | reflexivity
        | rewrite (stringerString_outside _ _ index j Hj) in H;
          apply (f_equal (fun o => o ≫= String.get 0)) in H;
          by vm_compute in H
        | rewrite (stringerString_outside _ _ index i Hi) in H;
          apply (f_equal (fun o => o ≫= String.get 0)) in H;
          by vm_compute in H
        | by vm_compute in H ].

(** X13.  The generated [String] methods never panic: for every value of
    the type, named or not, the table is read within its bounds and the
    names are cut within theirs. *)
Theorem enums_String_total :
  (forall i, is_Some (OutputFmt_String i)) /\
  (forall i, is_Some (NotesFmt_String i)) /\
  (forall i, is_Some (TOCPlacement_String i)) /\
  (forall i, is_Some (TOCType_String i)) /\
  (forall i, is_Some (APNXGeneration_String i)) /\
  (forall i, is_Some (StampPlacement_String i)).
Proof.
  repeat split.
  - unfold OutputFmt_String. stringer_total 6%nat _OutputFmt_index.
  - unfold NotesFmt_String. stringer_total 6%nat _NotesFmt_index.
  - unfold TOCPlacement_String. stringer_total 4%nat _TOCPlacement_index.
  - unfold TOCType_String. stringer_total 4%nat _TOCType_index.
  - unfold APNXGeneration_String. stringer_total 4%nat _APNXGeneration_index.
  - unfold StampPlacement_String. stringer_total 5%nat _StampPlacement_index.
Qed.

(** X14.  Each generated [String] method gives different texts for
    different values, the values without a name included: the value can be
    told from what is printed. *)
Theorem enums_String_inj :
  (forall i j, OutputFmt_String i = OutputFmt_String j -> i = j) /\
  (forall i j, NotesFmt_String i = NotesFmt_String j -> i = j) /\
  (forall i j, TOCPlacement_String i = TOCPlacement_String j -> i = j) /\
  (forall i j, TOCType_String i = TOCType_String j -> i = j) /\
  (forall i j, APNXGeneration_String i = APNXGeneration_String j -> i = j) /\
  (forall i j, StampPlacement_String i = StampPlacement_String j -> i = j).
Proof.
  repeat split.
  - unfold OutputFmt_String. stringer_inj 6%nat _OutputFmt_index.
  - unfold NotesFmt_String. stringer_inj 6%nat _NotesFmt_index.
  - unfold TOCPlacement_String. stringer_inj 4%nat _TOCPlacement_index.
  - unfold TOCType_String. stringer_inj 4%nat _TOCType_index.
  - unfold APNXGeneration_String. stringer_inj 4%nat _APNXGeneration_index.
  - unfold StampPlacement_String. stringer_inj 5%nat _StampPlacement_index.
Qed.

(** ** [CleanFileName] *)

Import Config.

Lemma removed_low c : removed c = true -> (N_of_ascii c < 0x80)%N.
Proof.
  destruct c as [[] [] [] [] [] [] [] []]; vm_compute; congruence.
Qed.

Lemma kept_high c : (0x80 <= N_of_ascii c)%N -> kept c = true.
Proof.
  intros H. unfold kept. destruct (removed c) eqn:R; [|done].
  apply removed_low in R. lia.
Qed.

Lemma allBytes_app p a b :
  allBytes p (a +:+ b) = allBytes p a && allBytes p b.
Proof.
  induction a as [|c a IH]; [done|].
  rewrite app_cons_str. simpl. by rewrite IH, andb_assoc.
Qed.

Lemma mapFrom_kept rem s : highBytes rem s -> allBytes kept (mapFrom rem s) = true.
Proof.
  revert rem. induction s as [|c s IH]; intros rem Hhi; [by destruct rem|].
  destruct rem as [|k].
  - pose proof (runeWidth_highBytes c s) as Hn.
    cbn [mapFrom]. destruct (N_of_ascii c <? 128)%N eqn:Hc.
    + destruct (removed c) eqn:R; [by apply IH|].
      cbn [allBytes]. unfold kept at 1. rewrite R. by apply IH.
    + apply N.ltb_ge in Hc.
      destruct (Utf8.runeWidth (String c s) - 1)%nat as [|k].
      * rewrite allBytes_app. by rewrite IH.
      * cbn [allBytes]. rewrite kept_high by done. by apply IH.
  - destruct Hhi as [Hc Hhi]. cbn [mapFrom allBytes].
    rewrite kept_high by done. by apply IH.
Qed.

Lemma mapFrom_fixpoint rem s :
  validUtf8 rem s = true -> allBytes kept s = true -> mapFrom rem s = s.
Proof.
  revert rem. induction s as [|c s IH]; intros rem Hv Hk; [by destruct rem|].
  cbn [allBytes] in Hk. apply andb_prop in Hk as [Hc Hk].
  destruct rem as [|k]; cbn [mapFrom validUtf8] in *.
  - destruct (N_of_ascii c <? 128)%N.
    + unfold kept in Hc. destruct (removed c); [done|]. f_equal. by apply IH.
    + destruct (Utf8.runeWidth (String c s) - 1)%nat; [done|].
      f_equal. by apply IH.
  - f_equal. by apply IH.
Qed.

Lemma validUtf8_RuneError r :
  validUtf8 0 (RuneErrorString +:+ r) = validUtf8 0 r.
Proof. reflexivity. Qed.

(** The width of a rune is read off the bytes that [mapFrom] copies. *)
Lemma runeWidth_mapFrom c s k :
  (Utf8.runeWidth (String c s) - 1)%nat = S k ->
  Utf8.runeWidth (String c (mapFrom (S k) s)) = S (S k).
Proof.
  unfold Utf8.runeWidth. intros W.
  destruct (Utf8.first c) as [[sz [lo hi]]|] eqn:F; [|by simpl in W].
  destruct s as [|s1 s]; [by simpl in W|].
  cbn [mapFrom].
  destruct (Utf8.inRange lo hi s1) eqn:R1; cbn [negb] in *; [|by simpl in W].
  destruct (sz <=? 2)%nat; [by injection W as <-|].
  destruct s as [|s2 s]; [by simpl in W|].
  destruct (Utf8.inRange 128 191 s2) eqn:R2; cbn [negb] in *; [|by simpl in W].
  destruct (sz <=? 3)%nat; [injection W as <-; cbn [mapFrom]; by rewrite R2|].
  destruct s as [|s3 s]; [by simpl in W|].
  destruct (Utf8.inRange 128 191 s3) eqn:R3; cbn [negb] in *; [|by simpl in W].
  injection W as <-. cbn [mapFrom]. by rewrite R2, R3.
Qed.

Lemma mapFrom_valid rem s : validUtf8 rem (mapFrom rem s) = true.
Proof.
  revert rem. induction s as [|c s IH]; intros rem; [by destruct rem|].
  destruct rem as [|k]; [|apply IH].
  cbn [mapFrom]. destruct (N_of_ascii c <? 128)%N eqn:Hc.
  - destruct (removed c); [apply IH|]. cbn [validUtf8]. rewrite Hc. apply IH.
  - destruct (Utf8.runeWidth (String c s) - 1)%nat as [|k] eqn:W.
    + rewrite validUtf8_RuneError. apply IH.
    + cbn [validUtf8]. rewrite Hc, (runeWidth_mapFrom _ _ _ W).
      replace (S (S k) - 1)%nat with (S k) by lia. apply IH.
Qed.

(** X15.  [CleanFileName] leaves none of the characters of [toRemove] in
    the name: every byte of the result is one that may stay. *)
Theorem CleanFileName_removes s : allBytes kept (CleanFileName s) = true.
Proof. by apply mapFrom_kept. Qed.

(** X16.  A name that is valid UTF-8 and holds none of the characters of
    [toRemove] comes back unchanged. *)
Theorem CleanFileName_unchanged s :
  validUtf8 0 s = true -> allBytes kept s = true -> CleanFileName s = s.
Proof. apply mapFrom_fixpoint. Qed.

Lemma CleanFileName_unchanged_witness :
  let s := "Tolstoy - War and Peace" in
  validUtf8 0 s = true /\ allBytes kept s = true /\ CleanFileName s = s.
Proof.
  split; [reflexivity|]. split; [reflexivity|].
  apply (CleanFileName_unchanged "Tolstoy - War and Peace"); reflexivity.
Defined.

(** X17.  Cleaning a name twice gives what cleaning it once gives: the
    result is valid UTF-8, the bytes that were no valid UTF-8 having been
    replaced with U+FFFD, and has nothing left to remove. *)
Theorem CleanFileName_idempotent s :
  validUtf8 0 (CleanFileName s) = true /\
  CleanFileName (CleanFileName s) = CleanFileName s.
Proof.
  split; [apply mapFrom_valid|].
  apply mapFrom_fixpoint; [apply mapFrom_valid|by apply mapFrom_kept].
Qed.

(** ** [GetFirstRuneString] *)

Lemma first_low c : (N_of_ascii c <? 128)%N = true -> Utf8.first c = None.
Proof.
  intros H%N.ltb_lt. unfold Utf8.first.
  by destruct (N.ltb_spec (N_of_ascii c) 194); [|lia].
Qed.

Lemma substring_0_0 s : substring 0 0 s = "".
Proof. by destruct s. Qed.

(** X18.  [GetFirstRuneString] gives one rune: the result is empty for the
    empty string only, is valid UTF-8 and as long as its first rune is wide;
    and it is the beginning of a string that is valid UTF-8. *)
Theorem GetFirstRuneString_rune s :
  let r := GetFirstRuneString s in
  (r = "" <-> s = "") /\
  Utf8.runeWidth r = String.length r /\
  validUtf8 0 r = true /\
  (validUtf8 0 s = true -> exists rest, s = r +:+ rest).
Proof.
  destruct s as [|c s].
  { repeat split; try done. intros _. by exists EmptyString. }
  cbn zeta. unfold GetFirstRuneString.
  destruct (N_of_ascii c <? 128)%N eqn:Hc.
  { repeat split; try done.
    - unfold Utf8.runeWidth. by rewrite first_low.
    - cbn [validUtf8]. by rewrite Hc.
    - by exists s. }
  destruct (Utf8.runeWidth (String c s) - 1)%nat as [|k] eqn:W.
  { repeat split; try done. cbn [validUtf8]. by rewrite Hc, W. }
  assert (exists pre rest, s = pre +:+ rest /\
    slice (String c s) 0 (Z.of_nat (S (S k))) = String c pre /\
    String.length pre = S k /\
    Utf8.runeWidth (String c pre) = S (S k)) as (pre & rest & -> & -> & Hl & Hw).
  { unfold Utf8.runeWidth in *. unfold slice.
    destruct (Utf8.first c) as [[sz [lo hi]]|] eqn:F; [|by simpl in W].
    destruct s as [|s1 s]; [by simpl in W|].
    destruct (Utf8.inRange lo hi s1) eqn:R1; cbn [negb] in *; [|by simpl in W].
    destruct (sz <=? 2)%nat eqn:S2.
    { injection W as <-. exists (String s1 ""), s. simpl.
      by rewrite ?substring_0_0, ?R1; cbn [negb]; rewrite ?S2, ?R2; cbn [negb];
      rewrite ?S3, ?R3. }
    destruct s as [|s2 s]; [by simpl in W|].
    destruct (Utf8.inRange 128 191 s2) eqn:R2; cbn [negb] in *; [|by simpl in W].
    destruct (sz <=? 3)%nat eqn:S3.
    { injection W as <-. exists (String s1 (String s2 "")), s. simpl.
      by rewrite ?substring_0_0, ?R1; cbn [negb]; rewrite ?S2, ?R2; cbn [negb];
      rewrite ?S3, ?R3. }
    destruct s as [|s3 s]; [by simpl in W|].
    destruct (Utf8.inRange 128 191 s3) eqn:R3; cbn [negb] in *; [|by simpl in W].
    injection W as <-. exists (String s1 (String s2 (String s3 ""))), s. simpl.
    by rewrite ?substring_0_0, ?R1; cbn [negb]; rewrite ?S2, ?R2; cbn [negb];
      rewrite ?S3, ?R3. }
  repeat split; try done.
  - rewrite Hw. simpl. by rewrite Hl.
  - cbn [validUtf8]. rewrite Hc, Hw. replace (S (S k) - 1)%nat with (S k) by lia.
    clear -Hl. revert k Hl. induction pre as [|d pre IH]; intros k Hl; [done|].
    injection Hl as Hl. simpl. destruct pre; [by subst k|].
    destruct k as [|k]; [done|]. by apply IH.
  - by exists rest.
Qed.
